(** * py-atom-unsaved-notes: the extraction core of [src/utils.py] and the
    merge loop of [src/cli.py], embedded in Rocq.

    Python values are modelled as follows.
    - [bytes] is a list of [Byte.byte]; a byte read by indexing is a Python
      [int], here a [Z].
    - [str] is a list of Unicode code points ([N]).
    - [dict] is a [gmap] (its iteration order plays no role below: each key
      of a dict is visited once), [set] is a [gset].
    - an exception is the [Raise] case of [result]. *)

From Stdlib Require Import ZArith NArith List Lia Bool.
From Stdlib Require Import Strings.Byte Strings.Ascii Strings.String.
From stdpp Require Import base option list gmap.

Set Default Proof Using "Type".

(** ** Python values *)

Abbreviation bytes := (list byte).
Abbreviation str := (list N).

#[global] Instance byte_eq_dec : EqDecision byte := Byte.byte_eq_dec.
#[global] Instance byte_countable : Countable byte :=
  inj_countable Byte.to_N Byte.of_N Byte.of_to_N.

(** [len(data)] as a Python [int]. *)
Definition len {A} (l : list A) : Z := Z.of_nat (length l).

(** The [int] a byte reads as. *)
Definition byte_val (b : byte) : Z := Z.of_N (Byte.to_N b).

Inductive exn := IndexError | UnicodeDecodeError | UnicodeEncodeError.

Inductive result (A : Type) : Type :=
| Ok (a : A)
| Raise (e : exn).
Arguments Ok {A} a.
Arguments Raise {A} e.

#[global] Instance result_ret : MRet result := fun A a => Ok a.
#[global] Instance result_bind : MBind result := fun A B f m =>
  match m with
  | Ok a => f a
  | Raise e => Raise e
  end.
#[global] Instance result_fmap : FMap result := fun A B f m =>
  match m with
  | Ok a => Ok (f a)
  | Raise e => Raise e
  end.

(** [data[i]] on a [bytes] object: a negative index counts from the end,
    an index outside [-len(data) .. len(data)-1] raises [IndexError]. *)
Definition bytes_getitem (data : bytes) (i : Z) : result Z :=
  let j := if (i <? 0)%Z then (i + len data)%Z else i in
  if (j <? 0)%Z then Raise IndexError
  else match data !! Z.to_nat j with
       | Some b => Ok (byte_val b)
       | None => Raise IndexError
       end.

(** Python normalises a slice bound against the length of the sequence. *)
Definition slice_bound (n i : Z) : nat :=
  Z.to_nat (if (i <? 0)%Z then Z.max 0 (i + n) else Z.min i n).

(** [l[lo:hi]]. *)
Definition slice {A} (l : list A) (lo hi : Z) : list A :=
  let a := slice_bound (len l) lo in
  let b := slice_bound (len l) hi in
  take (b - a) (drop a l).

(** [l[:hi]]. *)
Definition slice_to {A} (l : list A) (hi : Z) : list A :=
  take (slice_bound (len l) hi) l.

(** ** utils.decode_varint_length *)

Definition decode_varint_length (data : bytes) (offset : Z) : result (Z * Z) :=
  if (offset >=? len data)%Z then Ok (0, 0)%Z
  else
    first_byte ← bytes_getitem data offset;
    if (first_byte <? 128)%Z then Ok (first_byte, 1%Z)
    else if (offset + 1 >=? len data)%Z then Ok (0, 0)%Z
    else
      second_byte ← bytes_getitem data (offset + 1);
      let length := Z.lor (Z.land first_byte 0x7F) (Z.shiftl second_byte 7) in
      Ok (length, 2%Z).

(** The decoder as section 4.1 of the specification words it, over a
    position [offset] counted from the start of the buffer. *)
Definition varint_reference (data : bytes) (offset : nat) : Z * Z :=
  match data !! offset with
  | None => (0, 0)%Z
  | Some b1 =>
      if (byte_val b1 <? 128)%Z then (byte_val b1, 1%Z)
      else match data !! S offset with
           | None => (0, 0)%Z
           | Some b2 =>
               (Z.lor (Z.land (byte_val b1) 0x7F) (Z.shiftl (byte_val b2) 7), 2%Z)
           end
  end.

(** ** Python's UTF-8 codec ([bytes.decode], [str.encode])

    The decoder follows CPython's [utf8_decode]: a byte below 0x80 is a
    character; a lead byte announces one to three continuation bytes; an
    undecodable range is one byte for an invalid start byte, the bytes read
    so far for an invalid continuation byte, and the whole remainder for a
    sequence cut short by the end of the input. What happens to such a
    range is the business of the error handler. *)

Inductive errors := strict | replace | ignore.

(** The error handler's contribution for one undecodable range. *)
Definition decode_error (e : errors) : result str :=
  match e with
  | strict => Raise UnicodeDecodeError
  | replace => Ok [0xFFFD%N]
  | ignore => Ok []
  end.

Definition is_continuation (b : byte) : bool :=
  (0x80 <=? Byte.to_N b)%N && (Byte.to_N b <? 0xC0)%N.

Definition low6 (b : byte) : N := N.land (Byte.to_N b) 0x3F.

Definition code2 (b1 b2 : byte) : N :=
  N.lor (N.shiftl (N.land (Byte.to_N b1) 0x1F) 6) (low6 b2).
Definition code3 (b1 b2 b3 : byte) : N :=
  N.lor (N.shiftl (N.land (Byte.to_N b1) 0x0F) 12)
        (N.lor (N.shiftl (low6 b2) 6) (low6 b3)).
Definition code4 (b1 b2 b3 b4 : byte) : N :=
  N.lor (N.shiftl (N.land (Byte.to_N b1) 0x07) 18)
        (N.lor (N.shiftl (low6 b2) 12) (N.lor (N.shiftl (low6 b3) 6) (low6 b4))).

(** The second byte of a three-byte sequence is refused when it is no
    continuation byte, when the sequence would be an overlong form (lead
    0xE0) or when it would encode a surrogate (lead 0xED). *)
Definition bad_second3 (b1 b2 : byte) : bool :=
  negb (is_continuation b2)
  || (if (Byte.to_N b2 <? 0xA0)%N then (Byte.to_N b1 =? 0xE0)%N
      else (Byte.to_N b1 =? 0xED)%N).

(** Likewise for four bytes: overlong (lead 0xF0) or above U+10FFFF (0xF4). *)
Definition bad_second4 (b1 b2 : byte) : bool :=
  negb (is_continuation b2)
  || (if (Byte.to_N b2 <? 0x90)%N then (Byte.to_N b1 =? 0xF0)%N
      else (Byte.to_N b1 =? 0xF4)%N).

(** A decoded character followed by the decoding of the rest. *)
Definition emit (c : N) (rest : result str) : result str :=
  cons c <$> rest.

(** An undecodable range followed by the decoding of the rest. *)
Definition undecodable (e : errors) (rest : result str) : result str :=
  r ← decode_error e; t ← rest; Ok (r ++ t).

Fixpoint utf8_decode (e : errors) (s : bytes) : result str :=
  match s with
  | [] => Ok []
  | b1 :: s1 =>
      let ch := Byte.to_N b1 in
      if (ch <? 0x80)%N then emit ch (utf8_decode e s1)
      else if (ch <? 0xC2)%N then undecodable e (utf8_decode e s1)
      else if (ch <? 0xE0)%N then
        match s1 with
        | [] => undecodable e (Ok [])
        | b2 :: s2 =>
            if is_continuation b2 then emit (code2 b1 b2) (utf8_decode e s2)
            else undecodable e (utf8_decode e s1)
        end
      else if (ch <? 0xF0)%N then
        match s1 with
        | [] => undecodable e (Ok [])
        | b2 :: s2 =>
            if bad_second3 b1 b2 then undecodable e (utf8_decode e s1)
            else match s2 with
                 | [] => undecodable e (Ok [])
                 | b3 :: s3 =>
                     if is_continuation b3
                     then emit (code3 b1 b2 b3) (utf8_decode e s3)
                     else undecodable e (utf8_decode e s2)
                 end
        end
      else if (ch <? 0xF5)%N then
        match s1 with
        | [] => undecodable e (Ok [])
        | b2 :: s2 =>
            if bad_second4 b1 b2 then undecodable e (utf8_decode e s1)
            else match s2 with
                 | [] => undecodable e (Ok [])
                 | b3 :: s3 =>
                     if negb (is_continuation b3)
                     then undecodable e (utf8_decode e s2)
                     else match s3 with
                          | [] => undecodable e (Ok [])
                          | b4 :: s4 =>
                              if is_continuation b4
                              then emit (code4 b1 b2 b3 b4) (utf8_decode e s4)
                              else undecodable e (utf8_decode e s3)
                          end
                 end
        end
      else undecodable e (utf8_decode e s1)
  end.

(** [blob.decode] with the latin-1 codec: one character per byte. *)
Definition latin1_decode (s : bytes) : str := map Byte.to_N s.

(** The byte of value [n mod 256]. *)
Definition byte_of_N (n : N) : byte :=
  default x00 (Byte.of_N (n mod 256)%N).

Definition trail (n : N) : byte := byte_of_N (N.lor 0x80 (N.land n 0x3F)).

(** [text.encode] with the utf-8 codec: a surrogate code point cannot be
    encoded. *)
Fixpoint utf8_encode (s : str) : result bytes :=
  match s with
  | [] => Ok []
  | c :: s' =>
      if (c <? 0x80)%N then (byte_of_N c ::.) <$> utf8_encode s'
      else if (c <? 0x800)%N then
        (fun t => byte_of_N (N.lor 0xC0 (N.shiftr c 6)) :: trail c :: t)
          <$> utf8_encode s'
      else if (0xD800 <=? c)%N && (c <? 0xE000)%N then Raise UnicodeEncodeError
      else if (c <? 0x10000)%N then
        (fun t => byte_of_N (N.lor 0xE0 (N.shiftr c 12))
                  :: trail (N.shiftr c 6) :: trail c :: t)
          <$> utf8_encode s'
      else
        (fun t => byte_of_N (N.lor 0xF0 (N.shiftr c 18))
                  :: trail (N.shiftr c 12) :: trail (N.shiftr c 6) :: trail c :: t)
          <$> utf8_encode s'
  end.

(** ** Sequence operations of [str] and [bytes] *)

(** [s.startswith(p)]. *)
Fixpoint starts_with {A} `{EqDecision A} (p s : list A) : bool :=
  match p, s with
  | [], _ => true
  | _ :: _, [] => false
  | a :: p', b :: s' => bool_decide (a = b) && starts_with p' s'
  end.

(** [sub in s]. *)
Fixpoint contains {A} `{EqDecision A} (sub s : list A) : bool :=
  starts_with sub s
  || match s with
     | [] => false
     | _ :: s' => contains sub s'
     end.

(** [s.find(sub)], counting from position [i]: the lowest index at which
    [sub] occurs, or -1. *)
Fixpoint find_from {A} `{EqDecision A} (sub s : list A) (i : Z) : Z :=
  if starts_with sub s then i
  else match s with
       | [] => (-1)%Z
       | _ :: s' => find_from sub s' (i + 1)
       end.

Definition find {A} `{EqDecision A} (s sub : list A) : Z := find_from sub s 0.

(** [s.split(sep)] for a separator of one character. *)
Fixpoint split (sep : N) (s : str) : list str :=
  match s with
  | [] => [[]]
  | c :: s' =>
      if (c =? sep)%N then [] :: split sep s'
      else match split sep s' with
           | p :: ps => (c :: p) :: ps
           | [] => [[c]]
           end
  end.

Fixpoint drop_while {A} (p : A → bool) (l : list A) : list A :=
  match l with
  | [] => []
  | x :: l' => if p x then drop_while p l' else l
  end.

(** The code points of an ASCII string literal. *)
Definition str_of (s : string) : str :=
  map (fun a => N_of_ascii a) (list_ascii_of_string s).

(** ** Python's [re] on [bytes], for the patterns the program uses

    A backtracking matcher explores the ways a pattern can match at a
    position in priority order: a greedy repetition tries its longest run
    first and gives back one byte at a time, an alternation tries its left
    branch first. [rmatch r s] lists, in that order, every way [r] matches a
    prefix of [s], each as the groups captured and the input left over; the
    match [re] reports at a position is the first of the list. The patterns
    of the program repeat single-byte classes only and have no group under
    an alternation or a repetition, which is all this syntax offers. *)

Inductive regex :=
| Lit (l : bytes)
| Rep (cls : byte → bool) (lo : nat) (hi : option nat)
| Seq (r1 r2 : regex)
| Alt (r1 r2 : regex)
| Grp (r : regex).

(** The length of the longest prefix of [s] whose bytes are all in [cls]. *)
Fixpoint run (cls : byte → bool) (s : bytes) : nat :=
  match s with
  | b :: s' => if cls b then S (run cls s') else 0
  | [] => 0
  end.

(** The counts a greedy repetition tries: [lo + n], ..., [lo + 1], [lo]. *)
Fixpoint counts_down (lo n : nat) : list nat :=
  match n with
  | O => [lo]
  | S n' => (lo + n) :: counts_down lo n'
  end.

Definition greedy (cls : byte → bool) (lo : nat) (hi : option nat) (s : bytes)
  : list nat :=
  let most := match hi with
              | Some h => run cls s `min` h
              | None => run cls s
              end in
  if decide (lo ≤ most) then counts_down lo (most - lo) else [].

Fixpoint rmatch (r : regex) (s : bytes) : list (list bytes * bytes) :=
  match r with
  | Lit l => if starts_with l s then [([], drop (length l) s)] else []
  | Rep cls lo hi => (fun k => ([], drop k s)) <$> greedy cls lo hi s
  | Seq r1 r2 =>
      '(g1, s1) ← rmatch r1 s;
      '(g2, s2) ← rmatch r2 s1;
      [(g1 ++ g2, s2)]
  | Alt r1 r2 => rmatch r1 s ++ rmatch r2 s
  | Grp r1 =>
      (fun '(g, s') => (take (length s - length s') s :: g, s')) <$> rmatch r1 s
  end.

(** [re.search(r, s)]: the start of the leftmost match, if any. *)
Fixpoint re_search (r : regex) (s : bytes) : option nat :=
  match rmatch r s with
  | _ :: _ => Some 0
  | [] => match s with
          | [] => None
          | _ :: s' => S <$> re_search r s'
          end
  end.

(** [re.findall(r, s)], as the list of the groups of each match: the scan
    goes left to right, and after a match it resumes where the match ended
    ([skip] counts the bytes of the last match still to step over). *)
Fixpoint findall_from (r : regex) (skip : nat) (s : bytes) : list (list bytes) :=
  match s with
  | [] => match skip, rmatch r [] with
          | O, (g, _) :: _ => [g]
          | _, _ => []
          end
  | _ :: s' =>
      match skip with
      | S k => findall_from r k s'
      | O => match rmatch r s with
             | (g, rest) :: _ =>
                 g :: findall_from r (length s - length rest - 1) s'
             | [] => findall_from r 0 s'
             end
      end
  end.

Definition re_findall (r : regex) (s : bytes) : list (list bytes) :=
  findall_from r 0 s.

(** Byte classes of the patterns. *)
Definition in_range (lo hi : N) (b : byte) : bool :=
  (lo <=? Byte.to_N b)%N && (Byte.to_N b <=? hi)%N.

(** [\s] of a bytes pattern: space, \t, \n, \v, \f, \r. *)
Definition cls_space (b : byte) : bool :=
  in_range 9 13 b || in_range 32 32 b.

(** [[a-f0-9]]. *)
Definition cls_hex (b : byte) : bool :=
  in_range 0x61 0x66 b || in_range 0x30 0x39 b.

(** [[\s\x00-\x1f]]. *)
Definition cls_space_ctrl (b : byte) : bool :=
  cls_space b || in_range 0x00 0x1f b.

(** [[a-z0-9.\-]]. *)
Definition cls_grammar (b : byte) : bool :=
  in_range 0x61 0x7a b || in_range 0x30 0x39 b
  || in_range 0x2e 0x2e b || in_range 0x2d 0x2d b.

(** The bytes of an ASCII string literal. *)
Definition bytes_of (s : string) : bytes := list_byte_of_string s.

Definition quote : byte := x22.

(** ** utils.is_internal_buffer *)

Definition internal_markers : list str :=
  [ str_of "deserializer"; str_of "Workspace";
    str_of "packagesWithActiveGrammars"; str_of "destroyedItemURIs" ].

Definition newline : N := 10.

(** [l[0]] of the list a [split] returns, which is never empty. *)
Definition first_piece (l : list str) : str := default [] (head l).

Definition is_internal_buffer (text : str) : bool :=
  if bool_decide (text = []) || (len text <? 10)%Z then false
  else
    let first_line := slice_to (first_piece (split newline text)) 200 in
    existsb (fun marker => contains marker first_line) internal_markers.

(** ** utils.extract_buffer_grammars *)

(** The pattern [([a-f0-9]{32})Q[\s\x00-\x1f]{1,5}((?:text|source)\.[a-z0-9.\-]+)],
    where Q stands for the double quote character. *)
Definition grammar_pattern : regex :=
  Seq (Grp (Rep cls_hex 32 (Some 32)))
  (Seq (Lit [quote])
  (Seq (Rep cls_space_ctrl 1 (Some 5))
       (Grp (Seq (Alt (Lit (bytes_of "text")) (Lit (bytes_of "source")))
            (Seq (Lit (bytes_of "."))
                 (Rep cls_grammar 1 None)))))).

(** The [n]-th group of a match. *)
Definition group (n : nat) (m : list bytes) : bytes := default [] (m !! n).

(** The loop over [matches]; [bid.decode()] and [grammar.decode()] are strict. *)
Fixpoint grammars_loop (matches : list (list bytes)) (grammars : gmap str str)
  : result (gmap str str) :=
  match matches with
  | [] => Ok grammars
  | m :: rest =>
      key ← utf8_decode strict (group 0 m);
      grammar ← utf8_decode strict (group 1 m);
      grammars_loop rest (<[key := grammar]> grammars)
  end.

Definition extract_buffer_grammars (data : bytes) : result (gmap str str) :=
  let matches := re_findall grammar_pattern data in
  grammars_loop matches ∅.

(** ** The merge of cli.main *)

(** [if content or bid not in all_buffers: all_buffers[bid] = content] *)
Definition merge_item (all_buffers : gmap str bytes) (item : str * bytes)
  : gmap str bytes :=
  let '(bid, content) := item in
  if bool_decide (content ≠ []) || bool_decide (all_buffers !! bid = None)
  then <[bid := content]> all_buffers
  else all_buffers.

(** [for bid, content in buffers.items(): ...] *)
Definition merge_buffers (all_buffers buffers : gmap str bytes) : gmap str bytes :=
  foldl merge_item all_buffers (map_to_list buffers).

(** [all_grammars.update(grammars)] *)
Definition dict_update (all_grammars grammars : gmap str str) : gmap str str :=
  foldl (fun acc item => <[item.1 := item.2]> acc) all_grammars
        (map_to_list grammars).

(** The bytes [idQ], Q the double quote character. *)
Definition id_field : bytes := bytes_of "id" ++ [quote].

(** The pattern [idQ\s+([a-f0-9]{32})Q]. *)
Definition id_pattern : regex :=
  Seq (Lit id_field)
  (Seq (Rep cls_space 1 None)
  (Seq (Grp (Rep cls_hex 32 (Some 32)))
       (Lit [quote]))).

(** The pattern [idQ\s+] followed by [bid] and Q, for a [bid] without a
    character that is special in a pattern: every [bid] of the loop is 32
    bytes of [[a-f0-9]] (lemma [buffer_ids_hex]), which the pattern reads
    literally. *)
Definition id_pattern_of (bid : bytes) : regex :=
  Seq (Lit id_field)
  (Seq (Rep cls_space 1 None)
  (Seq (Lit bid)
       (Lit [quote]))).

Definition text_marker : bytes := bytes_of "text" ++ [quote].

(** [set(re.findall(id_pattern, data))] *)
Definition buffer_ids (data : bytes) : gset bytes :=
  list_to_set (group 0 <$> re_findall id_pattern data).

(** ** Notions the statements below use *)

(** [sub] occurs in [s]. *)
Definition occurs_in {A} (sub s : list A) : Prop :=
  ∃ pre suf, s = pre ++ sub ++ suf.

(** [line] is the first line of [text]: the characters before the first
    newline, or all of [text] when it has none. *)
Definition first_line_of (text line : str) : Prop :=
  (newline ∉ line) ∧ (text = line ∨ ∃ rest, text = line ++ newline :: rest).

(** The last non-empty text the maps of [files] hold for [k], or [v] when
    there is none: what the running text [v] of [k] has become once the
    results of [files] are merged in order. *)
Fixpoint last_nonempty (k : str) (v : bytes) (files : list (gmap str bytes)) : bytes :=
  match files with
  | [] => v
  | m :: rest =>
      match m !! k with
      | Some (b :: content) => last_nonempty k (b :: content) rest
      | _ => last_nonempty k v rest
      end
  end.

(** A byte below 128. *)
Definition is_ascii (b : byte) : Prop := (Byte.to_N b < 128)%N.

(** The window searched for the payload of the identifier found at [start]. *)
Definition window_at (data : bytes) (start : nat) : bytes :=
  slice data (Z.of_nat start) (len data `min` (Z.of_nat start + 2000))%Z.

(** [P] holds of every byte a pattern can match. *)
Fixpoint matches_only (P : byte → Prop) (r : regex) : Prop :=
  match r with
  | Lit l => Forall P l
  | Rep cls _ _ => ∀ b, cls b = true → P b
  | Seq r1 r2 | Alt r1 r2 => matches_only P r1 ∧ matches_only P r2
  | Grp r1 => matches_only P r1
  end.

(** [P] holds of every byte a group of the pattern can capture. *)
Fixpoint captures_only (P : byte → Prop) (r : regex) : Prop :=
  match r with
  | Lit _ | Rep _ _ _ => True
  | Seq r1 r2 | Alt r1 r2 => captures_only P r1 ∧ captures_only P r2
  | Grp r1 => matches_only P r1 ∧ captures_only P r1
  end.

(** ** Concrete inputs *)

(** A database in which no code point from 128 on is printable or white
    space; on ASCII input every database gives the same answers. *)
Definition ascii_only (c : N) : bool := false.

(** Two storage files that hold the same buffer id with the texts a and b. *)
Definition id_0 : bytes := bytes_of "0123456789abcdef0123456789abcdef".
Definition record_of (payload : bytes) : bytes :=
  bytes_of "id" ++ [quote] ++ bytes_of "  " ++ id_0 ++ [quote]
  ++ text_marker ++ payload.
Definition file_a : bytes := record_of (x01 :: bytes_of "a").
Definition file_b : bytes := record_of (x01 :: bytes_of "b").
Definition file_empty : bytes := record_of [x00].

(** A record whose length byte declares five bytes where two remain. *)
Definition file_short : bytes := record_of (x05 :: bytes_of "Hi").

(** A buffer in which the grammar pattern matches [id_0] twice. *)
Definition two_grammars : bytes :=
  id_0 ++ [quote; x01] ++ bytes_of "source.python" ++ [x00]
  ++ id_0 ++ [quote; x01] ++ bytes_of "text.plain".


(** ** Further notions the statements use *)

(** A character of a buffer identifier: a decimal digit or a letter a to f. *)
Definition is_hex_char (c : N) : Prop :=
  (48 ≤ c ≤ 57)%N ∨ (97 ≤ c ≤ 102)%N.

(** A character of a grammar tag after its first dot: a lower-case letter,
    a digit, a dot or a hyphen. *)
Definition is_grammar_char (c : N) : Prop :=
  (97 ≤ c ≤ 122)%N ∨ (48 ≤ c ≤ 57)%N ∨ c = 46%N ∨ c = 45%N.

(** A record whose two length bytes declare 2051 bytes. *)
Definition file_long : bytes := record_of [x83; x10].

(** A Unicode scalar value: a code point up to U+10FFFF that is no
    surrogate. *)
Definition is_scalar (c : N) : Prop :=
  (c < 0xD800 ∨ (0xE000 ≤ c ∧ c < 0x110000))%N.
Section Unicode.

(** Python's Unicode database is no part of the repository: what
    [str.isprintable] and [str.isspace] answer for a code point of 128 or
    more is a parameter of the model. Below 128 they are fixed: the
    printable characters are 0x20 to 0x7e, white space is \t \n \v \f \r,
    0x1c to 0x1f and the space. *)
Context (unicode_printable unicode_space : N → bool).

Definition isprintable (c : N) : bool :=
  if (c <? 128)%N then (32 <=? c)%N && (c <? 127)%N else unicode_printable c.

Definition isspace (c : N) : bool :=
  if (c <? 128)%N
  then ((9 <=? c)%N && (c <=? 13)%N) || ((28 <=? c)%N && (c <=? 32)%N)
  else unicode_space c.

(** [text.strip()] *)
Definition strip (text : str) : str :=
  reverse (drop_while isspace (reverse (drop_while isspace text))).

(** [c.isprintable()], or [c] is one of newline, tab, carriage return. *)
Definition kept (c : N) : bool :=
  isprintable c || contains [c] [10; 9; 13]%N.

(** The join of the characters of [text] that are kept. *)
Definition printable_only (text : str) : str :=
  c ← text; if kept c then [c] else [].

(** ** utils.normalize_text *)

Definition normalize_text (blob : bytes) : result str :=
  text ← match utf8_decode replace blob with
         | Raise UnicodeDecodeError => Ok (latin1_decode blob)
         | r => r
         end;
  let text := printable_only text in
  Ok (strip text).

(** ** utils.extract_buffers_by_id *)

(** The decoding of a payload: what the [try] block stores, or the empty
    bytes of its [except Exception] branch. *)
Definition clean_payload (text_bytes : bytes) : bytes :=
  let stored :=
    text ← utf8_decode ignore text_bytes;
    let clean := printable_only text in
    let clean := strip clean in
    utf8_encode clean in
  match stored with
  | Ok b => b
  | Raise _ => []
  end.

(** The body of the loop: the bytes stored for [bid]. *)
Definition buffer_text (data bid : bytes) : result bytes :=
  match re_search (id_pattern_of bid) data with
  | None => Ok []
  | Some start =>
      let start_pos := Z.of_nat start in
      let search_window_end := (len data `min` (start_pos + 2000))%Z in
      let search_window := slice data start_pos search_window_end in
      let text_pos := find search_window text_marker in
      if (text_pos =? -1)%Z then Ok []
      else
        let length_offset := (text_pos + len text_marker)%Z in
        if (length_offset >=? len search_window)%Z then Ok []
        else
          '(text_length, bytes_consumed) ←
            decode_varint_length search_window length_offset;
          if (text_length =? 0)%Z || (text_length >? 10000)%Z then Ok []
          else
            let content_start := (length_offset + bytes_consumed)%Z in
            let content_end := (content_start + text_length)%Z in
            if (content_end >? len search_window)%Z then Ok []
            else
              let text_bytes := slice search_window content_start content_end in
              Ok (clean_payload text_bytes)
  end.

(** [for bid in buffer_ids: ... buffer_texts[bid.decode()] = ...] *)
Fixpoint texts_loop (data : bytes) (ids : list bytes)
    (buffer_texts : gmap str bytes) : result (gmap str bytes) :=
  match ids with
  | [] => Ok buffer_texts
  | bid :: rest =>
      content ← buffer_text data bid;
      key ← utf8_decode strict bid;
      texts_loop data rest (<[key := content]> buffer_texts)
  end.

Definition extract_buffers_by_id (data : bytes) : result (gmap str bytes) :=
  texts_loop data (elements (buffer_ids data)) ∅.

(** ** cli.main: the loop over the storage files

    A file is the outcome of [path.read_bytes()]; a file that cannot be
    read is skipped. *)
Fixpoint scan_files (files : list (result bytes))
    (all_buffers : gmap str bytes) (all_grammars : gmap str str)
  : result (gmap str bytes * gmap str str) :=
  match files with
  | [] => Ok (all_buffers, all_grammars)
  | Raise _ :: rest => scan_files rest all_buffers all_grammars
  | Ok data :: rest =>
      buffers ← extract_buffers_by_id data;
      grammars ← extract_buffer_grammars data;
      scan_files rest (merge_buffers all_buffers buffers)
                 (dict_update all_grammars grammars)
  end.

(** * Theorems *)

(** ** The varint decoder *)

Lemma bytes_getitem_nat (data : bytes) (i : nat) (b : byte) :
  data !! i = Some b → bytes_getitem data (Z.of_nat i) = Ok (byte_val b).
Proof.
  intros Hb. unfold bytes_getitem.
  destruct (Z.ltb_spec (Z.of_nat i) 0); [lia|].
  destruct (Z.ltb_spec (Z.of_nat i) 0); [lia|].
  by rewrite Nat2Z.id, Hb.
Qed.

Lemma decode_varint_length_at (data : bytes) (offset : nat) :
  decode_varint_length data (Z.of_nat offset) = Ok (varint_reference data offset).
Proof.
  unfold decode_varint_length, varint_reference, len.
  destruct (data !! offset) as [b1|] eqn:H1.
  - pose proof (lookup_lt_Some _ _ _ H1) as Hlt.
    destruct (Z.geb_spec (Z.of_nat offset) (Z.of_nat (length data))); [lia|].
    rewrite (bytes_getitem_nat _ _ _ H1). simpl.
    destruct (byte_val b1 <? 128)%Z; [done|].
    replace (Z.of_nat offset + 1)%Z with (Z.of_nat (S offset)) by lia.
    destruct (data !! S offset) as [b2|] eqn:H2.
    + pose proof (lookup_lt_Some _ _ _ H2).
      destruct (Z.geb_spec (Z.of_nat (S offset)) (Z.of_nat (length data))); [lia|].
      by rewrite (bytes_getitem_nat _ _ _ H2).
    + apply lookup_ge_None in H2.
      by destruct (Z.geb_spec (Z.of_nat (S offset)) (Z.of_nat (length data))); [|lia].
  - apply lookup_ge_None in H1.
    by destruct (Z.geb_spec (Z.of_nat offset) (Z.of_nat (length data))); [|lia].
Qed.

(** C2: at every position [offset] of every byte buffer
    [decode_varint_length] returns what the reference definition of the
    specification gives, and on the bytes 0x83 0x01 at offset 0 it returns
    (131, 2). *)
Theorem decode_varint_length_reference :
  (∀ (data : bytes) (offset : nat),
     decode_varint_length data (Z.of_nat offset)
     = Ok (varint_reference data offset))
  ∧ decode_varint_length [x83; x01] 0 = Ok (131, 2)%Z.
Proof. split; [apply decode_varint_length_at|reflexivity]. Qed.

(** Outside the positions of the buffer Python's indexing takes over: a
    negative offset down to [-len(data)] reads from the end of the buffer,
    and a lower one raises [IndexError]. *)
Lemma decode_varint_length_negative (data : bytes) (offset : Z) :
  (offset < - len data)%Z → decode_varint_length data offset = Raise IndexError.
Proof.
  intros Hlt. unfold decode_varint_length, bytes_getitem, len in *.
  destruct (Z.geb_spec offset (Z.of_nat (length data))); [lia|].
  destruct (Z.ltb_spec offset 0); [|lia].
  by destruct (Z.ltb_spec (offset + Z.of_nat (length data)) 0); [|lia].
Qed.

(** ** The merge of the per-file results *)

Lemma merge_item_lookup (acc : gmap str bytes) (bid k : str) (content : bytes) :
  merge_item acc (bid, content) !! k
  = if decide (bid = k)
    then (if bool_decide (content ≠ []) || bool_decide (acc !! k = None)
          then Some content else acc !! k)
    else acc !! k.
Proof.
  unfold merge_item. destruct (decide (bid = k)) as [->|Hne].
  - destruct (bool_decide (content ≠ []) || bool_decide (acc !! k = None));
      [by rewrite lookup_insert_eq | done].
  - destruct (bool_decide (content ≠ []) || bool_decide (acc !! bid = None));
      [by rewrite lookup_insert_ne | done].
Qed.

Lemma foldl_merge_item_lookup (l : list (str * bytes)) (acc : gmap str bytes) (k : str) :
  NoDup l.*1 →
  foldl merge_item acc l !! k
  = match (list_to_map l : gmap str bytes) !! k with
    | Some content =>
        if bool_decide (content ≠ []) || bool_decide (acc !! k = None)
        then Some content else acc !! k
    | None => acc !! k
    end.
Proof.
  revert acc. induction l as [|[bid content] l IH]; intros acc Hnd; [done|].
  rewrite fmap_cons in Hnd. apply NoDup_cons in Hnd as [Hnotin Hnd].
  cbn [foldl]. rewrite list_to_map_cons, (IH _ Hnd), !merge_item_lookup.
  destruct (decide (bid = k)) as [->|Hne].
  - rewrite lookup_insert_eq.
    by rewrite (not_elem_of_list_to_map_1 _ _ Hnotin).
  - rewrite lookup_insert_ne by done.
    by destruct (list_to_map l !! k).
Qed.

(** What one file's result does to the running text of an id. *)
Lemma merge_buffers_lookup (all_buffers buffers : gmap str bytes) (k : str) :
  merge_buffers all_buffers buffers !! k
  = match buffers !! k with
    | Some content =>
        if bool_decide (content ≠ []) || bool_decide (all_buffers !! k = None)
        then Some content else all_buffers !! k
    | None => all_buffers !! k
    end.
Proof.
  unfold merge_buffers.
  rewrite foldl_merge_item_lookup by apply NoDup_fst_map_to_list.
  by rewrite list_to_map_to_list.
Qed.

Lemma foldl_insert_lookup (l : list (str * str)) (acc : gmap str str) (k : str) :
  NoDup l.*1 →
  foldl (fun acc item => <[item.1 := item.2]> acc) acc l !! k
  = match (list_to_map l : gmap str str) !! k with
    | Some g => Some g
    | None => acc !! k
    end.
Proof.
  revert acc. induction l as [|[k' g] l IH]; intros acc Hnd; [done|].
  rewrite fmap_cons in Hnd. apply NoDup_cons in Hnd as [Hnotin Hnd].
  cbn [foldl]. rewrite list_to_map_cons, (IH _ Hnd). cbn [fst snd].
  destruct (decide (k' = k)) as [->|Hne].
  - rewrite !lookup_insert_eq.
    by rewrite (not_elem_of_list_to_map_1 _ _ Hnotin).
  - rewrite !lookup_insert_ne by done.
    by destruct (list_to_map l !! k).
Qed.

Lemma dict_update_lookup (all_grammars grammars : gmap str str) (k : str) :
  dict_update all_grammars grammars !! k
  = match grammars !! k with
    | Some g => Some g
    | None => all_grammars !! k
    end.
Proof.
  unfold dict_update.
  rewrite foldl_insert_lookup by apply NoDup_fst_map_to_list.
  by rewrite list_to_map_to_list.
Qed.

Lemma last_nonempty_nonempty k v files : v ≠ [] → last_nonempty k v files ≠ [].
Proof.
  revert v. induction files as [|m rest IH]; intros v Hv; [done|].
  simpl. destruct (m !! k) as [[|b c]|]; by apply IH.
Qed.

Lemma foldl_merge_buffers_nonempty (files : list (gmap str bytes))
    (running : gmap str bytes) (k : str) (v : bytes) :
  running !! k = Some v → v ≠ [] →
  foldl merge_buffers running files !! k = Some (last_nonempty k v files).
Proof.
  revert running v. induction files as [|m rest IH]; intros running v Hk Hv; [done|].
  simpl. destruct (m !! k) as [[|b c]|] eqn:Hm.
  - apply IH; [|done]. rewrite merge_buffers_lookup, Hm, Hk. done.
  - apply IH; [|done]. rewrite merge_buffers_lookup, Hm. done.
  - apply IH; [|done]. by rewrite merge_buffers_lookup, Hm.
Qed.

Lemma last_nonempty_unchanged k v files :
  (∀ m, m ∈ files → m !! k = None ∨ m !! k = Some []) →
  last_nonempty k v files = v.
Proof.
  induction files as [|m rest IH]; intros Hall; [done|].
  cbn [last_nonempty].
  assert (last_nonempty k v rest = v) as Hrest
    by (apply IH; intros m' Hm'; apply Hall; by right).
  destruct (Hall m) as [Hm|Hm]; [by left| |]; by rewrite Hm.
Qed.

Lemma last_nonempty_from k v files :
  last_nonempty k v files = v
  ∨ ∃ m, m ∈ files ∧ m !! k = Some (last_nonempty k v files).
Proof.
  revert v. induction files as [|m rest IH]; intros v; [by left|].
  simpl. destruct (m !! k) as [[|b c]|] eqn:Hm.
  - destruct (IH v) as [?|(m' & ? & ?)]; [by left|].
    right. exists m'. split; [by right|done].
  - destruct (IH (b :: c)) as [Heq|(m' & ? & ?)].
    + right. exists m. split; [by left|]. by rewrite Heq.
    + right. exists m'. split; [by right|done].
  - destruct (IH v) as [?|(m' & ? & ?)]; [by left|].
    right. exists m'. split; [by right|done].
Qed.

(** C1 (amended): a file's text for an id overwrites the running entry
    exactly when that text is non-empty or the id is absent from the
    running map. Hence, once the running text of an id is non-empty, it
    stays non-empty through every sequence of per-file maps merged in
    order: it ends as the last non-empty text a later file yields for the
    id, and it is unchanged when every later file yields an empty text or
    none. *)
Theorem text_merge_nonempty_wins :
  (∀ (all_buffers buffers : gmap str bytes) (k : str) (content : bytes),
     buffers !! k = Some content →
     merge_buffers all_buffers buffers !! k
     = if bool_decide (content ≠ []) || bool_decide (all_buffers !! k = None)
       then Some content else all_buffers !! k)
  ∧ (∀ (running : gmap str bytes) (files : list (gmap str bytes))
       (k : str) (v : bytes),
       running !! k = Some v → v ≠ [] →
       ∃ v', foldl merge_buffers running files !! k = Some v'
             ∧ v' = last_nonempty k v files
             ∧ v' ≠ []
             ∧ (v' = v ∨ ∃ m, m ∈ files ∧ m !! k = Some v')
             ∧ ((∀ m, m ∈ files → m !! k = None ∨ m !! k = Some []) → v' = v)).
Proof.
  split.
  - intros all_buffers buffers k content Hk.
    by rewrite merge_buffers_lookup, Hk.
  - intros running files k v Hk Hv. exists (last_nonempty k v files).
    split; [by apply foldl_merge_buffers_nonempty|].
    split; [done|].
    split; [by apply last_nonempty_nonempty|].
    split; [apply last_nonempty_from|].
    apply last_nonempty_unchanged.
Qed.

(** C6: when one file yields the empty text for an id and another a
    non-empty text [t], merging the two results into any running map, in
    either order, leaves [t] as the text of the id. *)
Theorem text_merge_empty_vs_nonempty
    (all_buffers file_1 file_2 : gmap str bytes) (X : str) (t : bytes) :
  file_1 !! X = Some [] → file_2 !! X = Some t → t ≠ [] →
  merge_buffers (merge_buffers all_buffers file_1) file_2 !! X = Some t
  ∧ merge_buffers (merge_buffers all_buffers file_2) file_1 !! X = Some t.
Proof.
  intros H1 H2 Ht. rewrite !merge_buffers_lookup, H1, H2.
  rewrite (bool_decide_eq_true_2 (t ≠ [])) by done. cbn [orb]. done.
Qed.

(** ** Sequence operations *)

Lemma starts_with_spec {A} `{EqDecision A} (p s : list A) :
  starts_with p s = true ↔ ∃ suf, s = p ++ suf.
Proof.
  revert s. induction p as [|a p IH]; intros s.
  - split; [intros _; by exists s|done].
  - destruct s as [|b s]; simpl.
    + split; [done|intros [suf Hs]; done].
    + rewrite andb_true_iff, bool_decide_eq_true, IH. split.
      * intros [-> [suf ->]]. by exists suf.
      * intros [suf Hs]. injection Hs as -> ->. split; [done|by exists suf].
Qed.

Lemma starts_with_app {A} `{EqDecision A} (p s : list A) :
  starts_with p (p ++ s) = true.
Proof. apply starts_with_spec. by exists s. Qed.

Lemma contains_spec {A} `{EqDecision A} (sub s : list A) :
  contains sub s = true ↔ occurs_in sub s.
Proof.
  induction s as [|b s IH].
  - simpl. rewrite orb_false_r, starts_with_spec. split.
    + intros [suf Hs]. by exists [], suf.
    + intros (pre & suf & Hs). destruct pre; [by exists suf|done].
  - cbn [contains]. rewrite orb_true_iff, starts_with_spec, IH. split.
    + intros [[suf Hs]|(pre & suf & Hs)].
      * by exists [], suf.
      * exists (b :: pre), suf. by rewrite Hs.
    + intros (pre & suf & Hs). destruct pre as [|c pre].
      * left. by exists suf.
      * right. injection Hs as -> ->. by exists pre, suf.
Qed.

Lemma split_first_line (text : str) :
  first_line_of text (first_piece (split newline text)).
Proof.
  induction text as [|c text [Hnot Hshape]]; [split; [apply not_elem_of_nil|by left]|].
  cbn [split]. destruct (N.eqb_spec c newline) as [->|Hc].
  - split; [apply not_elem_of_nil|]. right. by exists text.
  - unfold first_piece in *. destruct (split newline text) as [|p ps]; simpl in *.
    + split; [|destruct Hshape as [->|[rest ->]]; [by left|right; by exists rest]].
      apply not_elem_of_cons. split; [congruence|apply not_elem_of_nil].
    + split; [apply not_elem_of_cons; split; [congruence|done]|].
      destruct Hshape as [->|[rest ->]]; [by left|right; by exists rest].
Qed.

Lemma first_line_unique (text l1 l2 : str) :
  first_line_of text l1 → first_line_of text l2 → l1 = l2.
Proof.
  revert text l2. induction l1 as [|c l1 IH]; intros text l2 [Hn1 H1] [Hn2 H2].
  - destruct l2 as [|d l2]; [done|]. exfalso.
    apply not_elem_of_cons in Hn2 as [Hd _].
    destruct H1 as [->|[r1 ->]]; destruct H2 as [H2|[r2 H2]];
      simplify_eq/=.
  - apply not_elem_of_cons in Hn1 as [Hc Hn1].
    destruct l2 as [|d l2].
    + exfalso. destruct H1 as [->|[r1 ->]]; destruct H2 as [H2|[r2 H2]];
        simplify_eq/=.
    + apply not_elem_of_cons in Hn2 as [Hd Hn2].
      assert (c = d ∧ ∃ text', first_line_of text' l1 ∧ first_line_of text' l2)
        as [-> (text' & F1 & F2)].
      { destruct H1 as [->|[r1 ->]]; destruct H2 as [H2|[r2 H2]];
          simplify_eq/=; (split; [done|]).
        - exists l2. split; (split; [done|by left]).
        - exists (l2 ++ newline :: r2).
          split; (split; [done|]); [by left|right; by exists r2].
        - exists (l1 ++ newline :: r1).
          split; (split; [done|]); [right; by exists r1|by left].
        - exists (l1 ++ newline :: r1).
          split; (split; [done|]); [right; by exists r1|].
          right. exists r2. congruence. }
      f_equal. by apply (IH text').
Qed.

Lemma slice_to_take {A} (l : list A) (n : nat) :
  slice_to l (Z.of_nat n) = take n l.
Proof.
  unfold slice_to, slice_bound, len.
  destruct (Z.ltb_spec (Z.of_nat n) 0); [lia|].
  destruct (decide (n ≤ length l)).
  - by rewrite Z.min_l, Nat2Z.id by lia.
  - rewrite Z.min_r, Nat2Z.id by lia. by rewrite !take_ge by lia.
Qed.

(** C8: [is_internal_buffer] answers true exactly for a text of at least
    10 characters whose first line has, within its first 200 characters, an
    occurrence of one of the internal markers; a text of fewer than 10
    characters is never classified as internal. *)
Theorem is_internal_buffer_iff (text : str) :
  (is_internal_buffer text = true
   ↔ 10 ≤ length text
     ∧ ∃ line marker, first_line_of text line
                      ∧ marker ∈ internal_markers
                      ∧ occurs_in marker (take 200 line))
  ∧ (length text < 10 → is_internal_buffer text = false)
  ∧ internal_markers
    = [ str_of "deserializer"; str_of "Workspace";
        str_of "packagesWithActiveGrammars"; str_of "destroyedItemURIs" ].
Proof.
  assert ((bool_decide (text = []) || (len text <? 10)%Z) = false
          ↔ 10 ≤ length text) as Hguard.
  { unfold len. destruct text as [|c text]; [simpl; split; [done|lia]|].
    rewrite bool_decide_eq_false_2 by done. simpl orb.
    rewrite Z.ltb_ge. cbn [length]. lia. }
  split; [|split; [|done]].
  - unfold is_internal_buffer.
    destruct (bool_decide (text = []) || (len text <? 10)%Z) eqn:Hg.
    + split; [done|]. intros [Hlen _]. by apply Hguard in Hlen.
    + assert (10 ≤ length text) as Hlen by (by apply Hguard).
      change 200%Z with (Z.of_nat 200).
      rewrite slice_to_take, existsb_exists. split.
      * intros (marker & Hin & Hc). split; [done|].
        exists (first_piece (split newline text)), marker.
        split; [apply split_first_line|].
        split; [by apply list_elem_of_In|by apply contains_spec].
      * intros (_ & line & marker & Hline & Hin & Hocc).
        exists marker. split; [by apply list_elem_of_In|].
        apply contains_spec.
        by rewrite (first_line_unique _ _ _ (split_first_line text) Hline).
  - intros Hlt. unfold is_internal_buffer.
    destruct (bool_decide (text = []) || (len text <? 10)%Z) eqn:Hg; [done|].
    assert (10 ≤ length text) by (by apply Hguard). lia.
Qed.

(** ** The UTF-8 decoder under its error handlers *)

Lemma emit_ok (c : N) (r : result str) :
  (∃ t, r = Ok t) → ∃ t, emit c r = Ok t.
Proof. intros [t ->]. by eexists. Qed.

Lemma undecodable_ok (e : errors) (r : result str) :
  e ≠ strict → (∃ t, r = Ok t) → ∃ t, undecodable e r = Ok t.
Proof. intros He [t ->]. destruct e; [done|by eexists..]. Qed.

(** Only the strict handler raises: with [replace] or [ignore] the decoder
    returns a string for every input. *)
Lemma utf8_decode_total (e : errors) (s : bytes) :
  e ≠ strict → ∃ t, utf8_decode e s = Ok t.
Proof.
  intros He. remember (length s) as n eqn:Hn.
  assert (length s ≤ n) as Hle by lia. clear Hn.
  revert s Hle. induction n as [|n IH]; intros s Hle.
  { destruct s; [by eexists|simpl in Hle; lia]. }
  destruct s as [|b1 s1]; [by eexists|]. cbn [length] in Hle.
  cbn [utf8_decode]. cbv zeta.
  repeat case_match; subst; cbn [length] in Hle;
    first [ apply emit_ok | apply undecodable_ok; [done|] ];
    first [ by eexists | apply IH; cbn [length]; lia ].
Qed.

(** The strict handler does raise: the error case of the model is real. *)
Lemma utf8_decode_strict_raises :
  utf8_decode strict [xff] = Raise UnicodeDecodeError.
Proof. reflexivity. Qed.

(** A [UnicodeDecodeError] is the only exception of the decoder. *)
Lemma utf8_decode_raise (e : errors) (s : bytes) (x : exn) :
  utf8_decode e s = Raise x → x = UnicodeDecodeError.
Proof.
  remember (length s) as n eqn:Hn.
  assert (length s ≤ n) as Hle by lia. clear Hn.
  revert s Hle. induction n as [|n IH]; intros s Hle.
  { destruct s; [done|simpl in Hle; lia]. }
  destruct s as [|b1 s1]; [done|]. cbn [length] in Hle.
  assert (∀ c r, (r = Raise x → x = UnicodeDecodeError) →
                 emit c r = Raise x → x = UnicodeDecodeError) as Hemit.
  { intros c [t|x'] Hr; [done|]. intros [= ->]. by apply Hr. }
  assert (∀ r, (r = Raise x → x = UnicodeDecodeError) →
               undecodable e r = Raise x → x = UnicodeDecodeError) as Hund.
  { intros r Hr. unfold undecodable.
    destruct e; simpl; [by intros [= <-]| |]; destruct r; simpl; try done;
      intros [= ->]; by apply Hr. }
  cbn [utf8_decode]. cbv zeta.
  repeat case_match; subst; cbn [length] in Hle;
    first [ apply Hemit | apply Hund ];
    first [ done | apply IH; cbn [length]; lia ].
Qed.

(** ** Trimming and filtering *)

Lemma drop_while_suffix {A} (p : A → bool) (l : list A) :
  ∃ pre, l = pre ++ drop_while p l.
Proof.
  induction l as [|x l [pre IH]]; [by exists []|].
  simpl. destruct (p x); [|by exists []].
  exists (x :: pre). by rewrite IH at 1.
Qed.

Lemma head_drop_while {A} (p : A → bool) (l : list A) (c : A) :
  head (drop_while p l) = Some c → p c = false.
Proof.
  induction l as [|x l IH]; [done|]. simpl.
  destruct (p x) eqn:Hp; [done|]. simpl. by intros [= <-].
Qed.

Lemma last_drop_while {A} (p : A → bool) (l : list A) (c : A) :
  last (drop_while p l) = Some c → last l = Some c.
Proof.
  destruct (drop_while_suffix p l) as [pre Hl]. intros Hlast.
  rewrite Hl, last_app, Hlast. done.
Qed.

Lemma strip_elem_of (text : str) (c : N) : c ∈ strip text → c ∈ text.
Proof.
  unfold strip. rewrite elem_of_reverse. intros Hc.
  destruct (drop_while_suffix isspace (reverse (drop_while isspace text)))
    as [pre1 H1].
  assert (c ∈ reverse (drop_while isspace text)) as Hc'
    by (rewrite H1; apply elem_of_app; by right).
  rewrite elem_of_reverse in Hc'.
  destruct (drop_while_suffix isspace text) as [pre2 H2].
  rewrite H2. apply elem_of_app. by right.
Qed.

Lemma strip_head (text : str) (c : N) :
  head (strip text) = Some c → isspace c = false.
Proof.
  unfold strip. rewrite head_reverse. intros Hc.
  apply last_drop_while in Hc. rewrite last_reverse in Hc.
  by apply head_drop_while in Hc.
Qed.

Lemma strip_last (text : str) (c : N) :
  last (strip text) = Some c → isspace c = false.
Proof.
  unfold strip. rewrite last_reverse. apply head_drop_while.
Qed.

Lemma kept_spec (c : N) :
  kept c = true ↔ isprintable c = true ∨ c = 10%N ∨ c = 9%N ∨ c = 13%N.
Proof.
  unfold kept. rewrite orb_true_iff.
  assert (contains [c] [10; 9; 13]%N = true ↔ c = 10%N ∨ c = 9%N ∨ c = 13%N)
    as ->; [|done].
  cbn [contains starts_with]. rewrite !andb_true_r, !orb_false_r, !orb_true_iff.
  rewrite !bool_decide_eq_true. done.
Qed.

Lemma printable_only_elem_of (text : str) (c : N) :
  c ∈ printable_only text ↔ c ∈ text ∧ kept c = true.
Proof.
  unfold printable_only. rewrite list_elem_of_bind. split.
  - intros (y & Hc & Hy). destruct (kept y) eqn:Hk.
    + apply list_elem_of_singleton in Hc as ->. done.
    + by apply elem_of_nil in Hc.
  - intros [Hc Hk]. exists c. rewrite Hk. split; [by left|done].
Qed.

(** C10: decoding with UTF-8 and the [replace] handler raises for no byte
    sequence, so the latin-1 branch of [normalize_text] is never taken:
    the result is that of the UTF-8 decoding, filtered and trimmed. *)
Theorem latin1_fallback_unreachable (blob : bytes) :
  (∀ x : exn, utf8_decode replace blob ≠ Raise x)
  ∧ ∃ text, utf8_decode replace blob = Ok text
            ∧ normalize_text blob = Ok (strip (printable_only text)).
Proof.
  destruct (utf8_decode_total replace blob) as [text Htext]; [done|].
  split; [intros x; by rewrite Htext|].
  exists text. split; [done|].
  unfold normalize_text. by rewrite Htext.
Qed.

(** C7: for every byte sequence [normalize_text] returns a string; each of
    its characters is printable or one of newline, tab and carriage return,
    and neither its first nor its last character is white space. *)
Theorem normalize_text_clean (blob : bytes) :
  ∃ text, normalize_text blob = Ok text
          ∧ (∀ c, c ∈ text →
                  isprintable c = true ∨ c = 10%N ∨ c = 9%N ∨ c = 13%N)
          ∧ (∀ c, head text = Some c → isspace c = false)
          ∧ (∀ c, last text = Some c → isspace c = false).
Proof.
  destruct (latin1_fallback_unreachable blob) as [_ (text & _ & ->)].
  eexists. split; [done|]. split; [|split].
  - intros c Hc. apply strip_elem_of, printable_only_elem_of in Hc as [_ Hc].
    by apply kept_spec.
  - apply strip_head.
  - apply strip_last.
Qed.


(** ** The matcher *)

Lemma rmatch_Lit (l s : bytes) (g : list bytes) (rest : bytes) :
  (g, rest) ∈ rmatch (Lit l) s ↔ g = [] ∧ s = l ++ rest.
Proof.
  cbn [rmatch]. destruct (starts_with l s) eqn:Hs.
  - apply starts_with_spec in Hs as [suf ->].
    rewrite drop_app_length, list_elem_of_singleton. split.
    + by intros [= -> ->].
    + intros [-> Heq]. by apply app_inv_head in Heq as <-.
  - split; [by intros ?%elem_of_nil|]. intros [_ ->].
    by rewrite starts_with_app in Hs.
Qed.

Lemma elem_of_counts_down (lo n k : nat) :
  k ∈ counts_down lo n ↔ lo ≤ k ≤ lo + n.
Proof.
  induction n as [|n IH]; cbn [counts_down].
  - rewrite list_elem_of_singleton. lia.
  - rewrite elem_of_cons, IH. lia.
Qed.

Lemma elem_of_greedy cls lo hi s (k : nat) :
  k ∈ greedy cls lo hi s
  ↔ lo ≤ k ∧ k ≤ run cls s ∧ (∀ h, hi = Some h → k ≤ h).
Proof.
  unfold greedy. destruct hi as [h|]; case_decide as Hlo.
  - rewrite elem_of_counts_down. split.
    + intros ?. split; [lia|]. split; [lia|]. intros ? [= <-]. lia.
    + intros (? & ? & Hh). specialize (Hh h eq_refl). lia.
  - split; [by intros ?%elem_of_nil|].
    intros (? & ? & Hh). specialize (Hh h eq_refl). lia.
  - rewrite elem_of_counts_down. split; [|lia].
    intros ?. split; [lia|]. split; [lia|done].
  - split; [by intros ?%elem_of_nil|]. lia.
Qed.

Lemma rmatch_Rep cls lo hi (s : bytes) (g : list bytes) (rest : bytes) :
  (g, rest) ∈ rmatch (Rep cls lo hi) s
  ↔ g = [] ∧ ∃ k, k ∈ greedy cls lo hi s ∧ rest = drop k s.
Proof.
  cbn [rmatch]. rewrite list_elem_of_fmap. split.
  - intros (k & [= -> ->] & Hk). eauto.
  - intros (-> & k & Hk & ->). eauto.
Qed.

Lemma rmatch_Seq r1 r2 (s : bytes) (g : list bytes) (rest : bytes) :
  (g, rest) ∈ rmatch (Seq r1 r2) s
  ↔ ∃ g1 s1 g2, (g1, s1) ∈ rmatch r1 s ∧ (g2, rest) ∈ rmatch r2 s1
                ∧ g = g1 ++ g2.
Proof.
  cbn [rmatch]. rewrite list_elem_of_bind. split.
  - intros ([g1 s1] & Hin & H1). apply list_elem_of_bind in Hin
      as ([g2 s2] & Hin & H2). apply list_elem_of_singleton in Hin as [= -> ->].
    by exists g1, s1, g2.
  - intros (g1 & s1 & g2 & H1 & H2 & ->). exists (g1, s1). split; [|done].
    apply list_elem_of_bind. exists (g2, rest). split; [|done].
    by apply list_elem_of_singleton.
Qed.

Lemma rmatch_Alt r1 r2 (s : bytes) (g : list bytes) (rest : bytes) :
  (g, rest) ∈ rmatch (Alt r1 r2) s
  ↔ (g, rest) ∈ rmatch r1 s ∨ (g, rest) ∈ rmatch r2 s.
Proof. cbn [rmatch]. apply elem_of_app. Qed.

Lemma rmatch_Grp r (s : bytes) (g : list bytes) (rest : bytes) :
  (g, rest) ∈ rmatch (Grp r) s
  ↔ ∃ g', (g', rest) ∈ rmatch r s ∧ g = take (length s - length rest) s :: g'.
Proof.
  cbn [rmatch]. rewrite list_elem_of_fmap. split.
  - intros ([g' s'] & [= -> ->] & Hin). by exists g'.
  - intros (g' & Hin & ->). by exists (g', rest).
Qed.

Lemma run_take (cls : byte → bool) (s : bytes) (k : nat) :
  k ≤ run cls s → length (take k s) = k ∧ Forall (λ b, cls b = true) (take k s).
Proof.
  revert k. induction s as [|b s IH]; intros k Hk.
  - simpl in Hk. assert (k = 0) as -> by lia. done.
  - destruct k as [|k]; [done|]. cbn [run] in Hk.
    destruct (cls b) eqn:Hb; [|lia].
    destruct (IH k) as [Hlen Hall]; [lia|]. cbn [take length].
    split; [by rewrite Hlen|by constructor].
Qed.

Lemma run_all (cls : byte → bool) (l s : bytes) :
  Forall (λ b, cls b = true) l → run cls (l ++ s) = length l + run cls s.
Proof.
  induction 1 as [|b l Hb _ IH]; [done|]. cbn [app run length]. by rewrite Hb, IH.
Qed.

(** A match consumes a prefix of the input. *)
Lemma rmatch_prefix (P : byte → Prop) r (s : bytes) (g : list bytes) (rest : bytes) :
  matches_only P r → (g, rest) ∈ rmatch r s →
  ∃ m, s = m ++ rest ∧ Forall P m.
Proof.
  revert s g rest. induction r as [l|cls lo hi|r1 IH1 r2 IH2|r1 IH1 r2 IH2|r1 IH1];
    intros s g rest Hr Hin; cbn [matches_only] in Hr.
  - apply rmatch_Lit in Hin as [_ ->]. by exists l.
  - apply rmatch_Rep in Hin as (_ & k & Hk & ->).
    apply elem_of_greedy in Hk as (_ & Hk & _).
    exists (take k s). split; [by rewrite take_drop|].
    destruct (run_take cls s k Hk) as [_ Hall].
    eapply Forall_impl; [exact Hall|done].
  - destruct Hr as [Hr1 Hr2].
    apply rmatch_Seq in Hin as (g1 & s1 & g2 & H1 & H2 & _).
    destruct (IH1 _ _ _ Hr1 H1) as (m1 & -> & Hm1).
    destruct (IH2 _ _ _ Hr2 H2) as (m2 & -> & Hm2).
    exists (m1 ++ m2). split; [by rewrite (assoc_L (++))|by apply Forall_app].
  - destruct Hr as [Hr1 Hr2]. apply rmatch_Alt in Hin as [Hin|Hin]; eauto.
  - apply rmatch_Grp in Hin as (g' & Hin & _). eauto.
Qed.

Lemma rmatch_captures (P : byte → Prop) r (s : bytes) (g : list bytes) (rest : bytes) :
  captures_only P r → (g, rest) ∈ rmatch r s → Forall (Forall P) g.
Proof.
  revert s g rest. induction r as [l|cls lo hi|r1 IH1 r2 IH2|r1 IH1 r2 IH2|r1 IH1];
    intros s g rest Hr Hin; cbn [captures_only] in Hr.
  - by apply rmatch_Lit in Hin as [-> _].
  - by apply rmatch_Rep in Hin as [-> _].
  - destruct Hr as [Hr1 Hr2].
    apply rmatch_Seq in Hin as (g1 & s1 & g2 & H1 & H2 & ->).
    apply Forall_app; eauto.
  - destruct Hr as [Hr1 Hr2]. apply rmatch_Alt in Hin as [Hin|Hin]; eauto.
  - destruct Hr as [Hm Hr1]. apply rmatch_Grp in Hin as (g' & Hin & ->).
    constructor; [|eauto].
    destruct (rmatch_prefix P _ _ _ _ Hm Hin) as (m & -> & HP).
    rewrite length_app, Nat.add_sub, take_app_length. done.
Qed.

(** ** [re.search] and [re.findall] *)

Lemma re_search_Some r (s : bytes) (n : nat) :
  re_search r s = Some n → n ≤ length s ∧ rmatch r (drop n s) ≠ [].
Proof.
  revert n. induction s as [|b s IH]; intros n; cbn [re_search].
  - destruct (rmatch r []) eqn:Hm; [done|]. intros [= <-]. by rewrite drop_0, Hm.
  - destruct (rmatch r (b :: s)) eqn:Hm.
    + destruct (re_search r s) as [n'|]; [|done]. intros [= <-].
      destruct (IH n' eq_refl). cbn [length drop]. split; [lia|done].
    + intros [= <-]. rewrite drop_0, Hm. split; [lia|done].
Qed.

Lemma re_search_found r (s : bytes) (n : nat) :
  rmatch r (drop n s) ≠ [] → is_Some (re_search r s).
Proof.
  revert n. induction s as [|b s IH]; intros n Hm; cbn [re_search].
  - rewrite drop_nil in Hm. by destruct (rmatch r []).
  - destruct (rmatch r (b :: s)) eqn:Hhere; [|done].
    destruct n as [|n]; [by rewrite drop_0 in Hm|].
    destruct (IH n Hm) as [k ->]. done.
Qed.

(** Every match [re.findall] lists is the first way the pattern matches
    at some position of the input. *)
Lemma findall_from_elem r (skip : nat) (s : bytes) (g : list bytes) :
  g ∈ findall_from r skip s →
  ∃ n rest tl, rmatch r (drop n s) = (g, rest) :: tl.
Proof.
  revert skip. induction s as [|b s IH]; intros skip; cbn [findall_from].
  - destruct skip; [|by intros ?%elem_of_nil].
    destruct (rmatch r []) as [|[g' rest] tl] eqn:Hm; [by intros ?%elem_of_nil|].
    intros ->%list_elem_of_singleton. by exists 0, rest, tl.
  - assert (∀ k, g ∈ findall_from r k s →
                 ∃ n rest tl, rmatch r (drop n (b :: s)) = (g, rest) :: tl) as Hlater.
    { intros k Hin. destruct (IH k Hin) as (n & rest & tl & Hm).
      by exists (S n), rest, tl. }
    destruct skip; [|by apply Hlater].
    destruct (rmatch r (b :: s)) as [|[g' rest] tl] eqn:Hm; [by apply Hlater|].
    intros [->|Hin]%elem_of_cons; [by exists 0, rest, tl|by eapply Hlater].
Qed.

Lemma findall_from_first r (s : bytes) (g : list bytes) (rest : bytes) tl :
  rmatch r s = (g, rest) :: tl → g ∈ findall_from r 0 s.
Proof.
  intros Hm. destruct s; cbn [findall_from]; rewrite Hm; by left.
Qed.

(** ** The identifier patterns *)

Lemma rmatch_id_pattern_inv (s : bytes) (g : list bytes) (rest : bytes) :
  (g, rest) ∈ rmatch id_pattern s →
  ∃ ws bid, g = [bid] ∧ s = id_field ++ ws ++ bid ++ quote :: rest
            ∧ 1 ≤ length ws ∧ Forall (λ b, cls_space b = true) ws
            ∧ length bid = 32 ∧ Forall (λ b, cls_hex b = true) bid.
Proof.
  unfold id_pattern. intros Hin.
  apply rmatch_Seq in Hin as (g1 & s1 & g2 & H1 & Hin & ->).
  apply rmatch_Lit in H1 as [-> ->].
  apply rmatch_Seq in Hin as (g1 & s2 & g3 & H1 & Hin & ->).
  apply rmatch_Rep in H1 as (-> & k & Hk & ->).
  apply elem_of_greedy in Hk as (Hk1 & Hk2 & _).
  apply rmatch_Seq in Hin as (g1 & s3 & g4 & H1 & Hin & ->).
  apply rmatch_Lit in Hin as [-> Hs3].
  apply rmatch_Grp in H1 as (g' & H1 & ->).
  apply rmatch_Rep in H1 as (-> & k' & Hk' & Hs3').
  apply elem_of_greedy in Hk' as (Hlo & Hrun & Hhi).
  specialize (Hhi 32 eq_refl). assert (k' = 32) as -> by lia.
  destruct (run_take cls_space s1 k Hk2) as [Hlen1 Hall1].
  destruct (run_take cls_hex (drop k s1) 32 Hrun) as [Hlen2 Hall2].
  exists (take k s1), (take 32 (drop k s1)).
  assert (length (drop k s1) - length s3 = 32) as Hcap.
  { rewrite Hs3', !length_drop. rewrite length_take, length_drop in Hlen2. lia. }
  rewrite Hcap. split; [done|]. split; [|by rewrite Hlen1].
  f_equal. rewrite <-(take_drop k s1) at 1. f_equal.
  rewrite <-(take_drop 32 (drop k s1)) at 1. f_equal.
  by rewrite <-Hs3', Hs3.
Qed.

Lemma rmatch_id_pattern_of_intro (ws bid rest : bytes) :
  1 ≤ length ws → Forall (λ b, cls_space b = true) ws →
  ([], rest) ∈ rmatch (id_pattern_of bid) (id_field ++ ws ++ bid ++ quote :: rest).
Proof.
  intros Hlen Hws. unfold id_pattern_of.
  apply rmatch_Seq. exists [], (ws ++ bid ++ quote :: rest), [].
  split; [by apply rmatch_Lit|]. split; [|done].
  apply rmatch_Seq. exists [], (bid ++ quote :: rest), [].
  split; [|split; [|done]].
  - apply rmatch_Rep. split; [done|]. exists (length ws).
    split; [|by rewrite drop_app_length].
    apply elem_of_greedy. rewrite run_all by done. split; [done|]. split; [lia|done].
  - apply rmatch_Seq. exists [], (quote :: rest), [].
    split; [by apply rmatch_Lit|]. split; [by apply rmatch_Lit|done].
Qed.

Lemma rmatch_id_pattern_intro (ws bid rest : bytes) :
  1 ≤ length ws → Forall (λ b, cls_space b = true) ws →
  length bid = 32 → Forall (λ b, cls_hex b = true) bid →
  ([bid], rest) ∈ rmatch id_pattern (id_field ++ ws ++ bid ++ quote :: rest).
Proof.
  intros Hlen Hws Hbid Hhex. unfold id_pattern.
  apply rmatch_Seq. exists [], (ws ++ bid ++ quote :: rest), [bid].
  split; [by apply rmatch_Lit|]. split; [|done].
  apply rmatch_Seq. exists [], (bid ++ quote :: rest), [bid].
  split; [|split; [|done]].
  - apply rmatch_Rep. split; [done|]. exists (length ws).
    split; [|by rewrite drop_app_length].
    apply elem_of_greedy. rewrite run_all by done. split; [done|]. split; [lia|done].
  - apply rmatch_Seq. exists [bid], (quote :: rest), [].
    split; [|split; [by apply rmatch_Lit|done]].
    apply rmatch_Grp. exists []. split.
    + apply rmatch_Rep. split; [done|]. exists 32.
      split; [|by rewrite <-Hbid, drop_app_length].
      apply elem_of_greedy. rewrite run_all by done.
      split; [done|]. split; [lia|]. by intros ? [= <-].
    + rewrite length_app. cbn [length].
      replace (length bid + S (length rest) - S (length rest)) with (length bid) by lia.
      by rewrite take_app_length.
Qed.

(** The identifiers the locator returns. *)
Lemma buffer_ids_elem (data bid : bytes) :
  bid ∈ buffer_ids data →
  ∃ n ws rest, drop n data = id_field ++ ws ++ bid ++ quote :: rest
               ∧ 1 ≤ length ws ∧ Forall (λ b, cls_space b = true) ws
               ∧ length bid = 32 ∧ Forall (λ b, cls_hex b = true) bid.
Proof.
  unfold buffer_ids. rewrite elem_of_list_to_set, list_elem_of_fmap.
  intros (g & -> & Hg).
  apply findall_from_elem in Hg as (n & rest & tl & Hm).
  assert ((g, rest) ∈ rmatch id_pattern (drop n data)) as Hin
    by (rewrite Hm; by left).
  apply rmatch_id_pattern_inv in Hin as (ws & bid & -> & Hs & ?).
  by exists n, ws, rest.
Qed.

Lemma buffer_ids_hex (data bid : bytes) :
  bid ∈ buffer_ids data → length bid = 32 ∧ Forall (λ b, cls_hex b = true) bid.
Proof. intros (? & ? & ? & ? & ? & ? & ? & ?)%buffer_ids_elem. done. Qed.

Lemma buffer_ids_search (data bid : bytes) :
  bid ∈ buffer_ids data →
  ∃ start, re_search (id_pattern_of bid) data = Some start.
Proof.
  intros (n & ws & rest & Hs & Hlen & Hws & _)%buffer_ids_elem.
  apply (re_search_found _ _ n). rewrite Hs.
  intros Hnil. pose proof (rmatch_id_pattern_of_intro ws bid rest Hlen Hws) as Hin.
  rewrite Hnil in Hin. by apply elem_of_nil in Hin.
Qed.

(** C9: every identifier the initial [findall] returns is found again by
    the search for that identifier, so the branch of [buffer_text] for a
    missing match is never taken. *)
Theorem located_id_is_found_again (data bid : bytes) :
  bid ∈ buffer_ids data →
  ∃ start, re_search (id_pattern_of bid) data = Some start.
Proof. apply buffer_ids_search. Qed.

(** ** Decoding identifiers and grammar tags *)

Lemma utf8_decode_ascii (e : errors) (s : bytes) :
  Forall is_ascii s → utf8_decode e s = Ok (latin1_decode s).
Proof.
  induction 1 as [|b s Hb _ IH]; [done|]. cbn [utf8_decode]. cbv zeta.
  apply N.ltb_lt in Hb. by rewrite Hb, IH.
Qed.

Lemma to_N_inj (a b : byte) : Byte.to_N a = Byte.to_N b → a = b.
Proof.
  intros Heq. pose proof (Byte.of_to_N a) as Ha.
  rewrite Heq, Byte.of_to_N in Ha. by injection Ha.
Qed.

Lemma latin1_decode_inj (s t : bytes) : latin1_decode s = latin1_decode t → s = t.
Proof.
  revert t. induction s as [|a s IH]; intros [|b t]; try done.
  unfold latin1_decode. cbn [map]. intros [= Hab Hst].
  f_equal; [by apply to_N_inj|by apply IH].
Qed.

Lemma cls_hex_ascii (b : byte) : cls_hex b = true → is_ascii b.
Proof.
  unfold cls_hex, in_range, is_ascii.
  rewrite orb_true_iff, !andb_true_iff, !N.leb_le. lia.
Qed.

(** ** The payload extractor *)

Lemma find_from_range {A} `{EqDecision A} (sub s : list A) (i : Z) :
  find_from sub s i = (-1)%Z ∨ (i ≤ find_from sub s i ≤ i + len s)%Z.
Proof.
  revert i. induction s as [|b s IH]; intros i; cbn [find_from].
  - destruct (starts_with sub []); [right|by left]. unfold len. simpl. lia.
  - destruct (starts_with sub (b :: s)); [right; unfold len; lia|].
    destruct (IH (i + 1)%Z) as [->|Hr]; [by left|right].
    unfold len in *. cbn [length]. lia.
Qed.

Lemma window_at_length (data : bytes) (start : nat) :
  (len (window_at data start) ≤ 2000)%Z.
Proof.
  unfold window_at, slice, slice_bound, len.
  rewrite length_take, length_drop.
  destruct (Z.ltb_spec (Z.of_nat start) 0); [lia|].
  destruct (Z.ltb_spec (Z.of_nat (length data) `min` (Z.of_nat start + 2000)) 0); lia.
Qed.

(** What [buffer_text] stores once the identifier is found at [start] and
    the text marker at [text_pos] in the window. *)
Lemma buffer_text_found (data bid : bytes) (start : nat) :
  re_search (id_pattern_of bid) data = Some start →
  let window := window_at data start in
  let text_pos := find window text_marker in
  let length_offset := (text_pos + len text_marker)%Z in
  text_pos ≠ (-1)%Z →
  ∃ text_length bytes_consumed,
    decode_varint_length window length_offset = Ok (text_length, bytes_consumed)
    ∧ buffer_text data bid
      = Ok (let content_start := (length_offset + bytes_consumed)%Z in
            let content_end := (content_start + text_length)%Z in
            if (text_length =? 0)%Z || (text_length >? 10000)%Z
               || (content_end >? len window)%Z
            then []
            else clean_payload (slice window content_start content_end)).
Proof.
  intros Hsearch window text_pos length_offset Hpos.
  assert (0 ≤ length_offset)%Z as Hnonneg.
  { unfold length_offset, text_pos, find in *.
    destruct (find_from_range text_marker window 0) as [?|?]; [done|].
    unfold len. lia. }
  pose proof (decode_varint_length_at window (Z.to_nat length_offset)) as Hdec.
  rewrite Z2Nat.id in Hdec by done.
  destruct (varint_reference window (Z.to_nat length_offset))
    as [text_length bytes_consumed] eqn:Href.
  exists text_length, bytes_consumed. split; [done|].
  unfold buffer_text. rewrite Hsearch. cbv zeta.
  fold (window_at data start). fold window. fold text_pos.
  rewrite (proj2 (Z.eqb_neq _ _) Hpos). fold length_offset.
  destruct (Z.geb_spec length_offset (len window)) as [Hge|Hlt].
  - assert (text_length = 0%Z) as ->; [|done].
    unfold varint_reference in Href.
    rewrite (proj2 (lookup_ge_None window (Z.to_nat length_offset))) in Href
      by (unfold len in Hge; lia).
    by injection Href.
  - rewrite Hdec. cbn [mbind result_bind].
    destruct ((text_length =? 0)%Z || (text_length >? 10000)%Z); [done|].
    cbn [orb]. by destruct (length_offset + bytes_consumed + text_length >? len window)%Z.
Qed.

Lemma buffer_text_total (data bid : bytes) : ∃ v, buffer_text data bid = Ok v.
Proof.
  destruct (re_search (id_pattern_of bid) data) as [start|] eqn:Hsearch.
  - destruct (decide (find (window_at data start) text_marker = (-1)%Z)) as [Hpos|Hpos].
    + exists []. unfold buffer_text. rewrite Hsearch. cbv zeta.
      fold (window_at data start). by rewrite Hpos.
    + destruct (buffer_text_found data bid start Hsearch Hpos) as (? & ? & _ & ->).
      by eexists.
  - exists []. unfold buffer_text. by rewrite Hsearch.
Qed.

Lemma texts_loop_lookup (data : bytes) (ids : list bytes) (acc : gmap str bytes) :
  NoDup ids → Forall (Forall is_ascii) ids →
  ∃ buffer_texts,
    texts_loop data ids acc = Ok buffer_texts
    ∧ (∀ bid, bid ∈ ids →
         ∃ v, buffer_text data bid = Ok v
              ∧ buffer_texts !! latin1_decode bid = Some v)
    ∧ (∀ k, (∀ bid, bid ∈ ids → latin1_decode bid ≠ k) →
            buffer_texts !! k = acc !! k).
Proof.
  revert acc. induction ids as [|bid rest IH]; intros acc Hnd Hascii.
  - exists acc. split; [done|]. split; [by intros ? ?%elem_of_nil|done].
  - apply NoDup_cons in Hnd as [Hnotin Hnd].
    apply Forall_cons in Hascii as [Hbid Hascii].
    destruct (buffer_text_total data bid) as [v Hv].
    destruct (IH (<[latin1_decode bid := v]> acc) Hnd Hascii)
      as (m & Hloop & Hin & Hout).
    exists m. cbn [texts_loop]. rewrite Hv, (utf8_decode_ascii _ _ Hbid).
    split; [exact Hloop|]. split.
    + intros bid' [->|Hrest]%elem_of_cons; [|by apply Hin].
      exists v. split; [done|]. rewrite Hout; [apply lookup_insert_eq|].
      intros bid' Hbid' Heq%latin1_decode_inj. by subst.
    + intros k Hk. rewrite Hout.
      * apply lookup_insert_ne, Hk. by left.
      * intros bid' Hbid'. apply Hk. by right.
Qed.

(** The extractor returns a map, which binds every located identifier to
    what [buffer_text] computes for it, and nothing else. *)
Lemma extract_buffers_by_id_lookup (data : bytes) :
  ∃ buffer_texts,
    extract_buffers_by_id data = Ok buffer_texts
    ∧ (∀ bid, bid ∈ buffer_ids data →
         ∃ v, buffer_text data bid = Ok v
              ∧ buffer_texts !! latin1_decode bid = Some v)
    ∧ (∀ k, (∀ bid, bid ∈ buffer_ids data → latin1_decode bid ≠ k) →
            buffer_texts !! k = None).
Proof.
  destruct (texts_loop_lookup data (elements (buffer_ids data)) ∅)
    as (m & Hloop & Hin & Hout).
  - apply NoDup_elements.
  - apply Forall_forall. intros bid Hbid%elem_of_elements.
    destruct (buffer_ids_hex _ _ Hbid) as [_ Hhex].
    eapply Forall_impl; [exact Hhex|]. apply cls_hex_ascii.
  - exists m. split; [done|]. split.
    + intros bid Hbid. apply Hin. by apply elem_of_elements.
    + intros k Hk. rewrite Hout; [done|].
      intros bid Hbid. apply Hk. by apply elem_of_elements.
Qed.

Lemma slice_length {A} (l : list A) (lo hi : Z) :
  (0 ≤ lo ≤ hi)%Z → (hi ≤ len l)%Z → len (slice l lo hi) = (hi - lo)%Z.
Proof.
  intros Hlo Hhi. unfold slice, slice_bound, len in *.
  rewrite length_take, length_drop.
  destruct (Z.ltb_spec lo 0); [lia|]. destruct (Z.ltb_spec hi 0); lia.
Qed.

Lemma varint_reference_range (data : bytes) (offset : nat) :
  (0 ≤ (varint_reference data offset).1)%Z
  ∧ (0 ≤ (varint_reference data offset).2 ≤ 2)%Z.
Proof.
  assert (∀ b, 0 ≤ byte_val b)%Z as Hb by (intros b; unfold byte_val; lia).
  unfold varint_reference.
  destruct (data !! offset) as [b1|]; [|simpl; lia].
  destruct (byte_val b1 <? 128)%Z; [simpl; split; [apply Hb|lia]|].
  destruct (data !! S offset) as [b2|]; simpl; [|lia]. split; [|lia].
  apply Z.lor_nonneg. split.
  - apply Z.land_nonneg. left. apply Hb.
  - apply Z.shiftl_nonneg, Hb.
Qed.

(** C3: for every identifier located in a buffer the extractor records the
    empty text whenever the decoded length is 0 (which includes a failed
    decode), exceeds 10000, or reaches past the end of the window of at
    most 2000 bytes; a text that is recorded non-empty is the cleaned form
    of the slice of exactly the declared length, which lies inside the
    window. *)
Theorem payload_whole_or_empty (data bid : bytes) :
  bid ∈ buffer_ids data →
  ∃ buffer_texts start text_length bytes_consumed,
    extract_buffers_by_id data = Ok buffer_texts
    ∧ re_search (id_pattern_of bid) data = Some start
    ∧ let window := window_at data start in
      let text_pos := find window text_marker in
      let content_start := (text_pos + len text_marker + bytes_consumed)%Z in
      let content_end := (content_start + text_length)%Z in
      (len window ≤ 2000)%Z
      ∧ decode_varint_length window (text_pos + len text_marker)
        = Ok (text_length, bytes_consumed)
      ∧ (text_length = 0%Z ∨ (text_length > 10000)%Z
         ∨ (content_end > len window)%Z →
         buffer_texts !! latin1_decode bid = Some [])
      ∧ (∀ v, buffer_texts !! latin1_decode bid = Some v → v ≠ [] →
              text_pos ≠ (-1)%Z
              ∧ (0 < text_length ≤ 10000)%Z
              ∧ (content_end ≤ len window)%Z
              ∧ len (slice window content_start content_end) = text_length
              ∧ v = clean_payload (slice window content_start content_end)).
Proof.
  intros Hbid.
  destruct (extract_buffers_by_id_lookup data) as (m & Hm & Hin & _).
  destruct (Hin bid Hbid) as (v & Hv & Hlook).
  destruct (buffer_ids_search data bid Hbid) as [start Hstart].
  exists m, start.
  destruct (decide (find (window_at data start) text_marker = (-1)%Z)) as [Hpos|Hpos].
  - pose proof (decode_varint_length_at (window_at data start) 4) as Hdec.
    destruct (varint_reference (window_at data start) 4) as [tl bc].
    exists tl, bc. split; [done|]. split; [done|]. cbv zeta.
    rewrite Hpos. split; [apply window_at_length|]. split; [exact Hdec|].
    assert (v = []) as ->.
    { unfold buffer_text in Hv. rewrite Hstart in Hv. cbv zeta in Hv.
      fold (window_at data start) in Hv. rewrite Hpos in Hv. by injection Hv. }
    split; [done|]. intros v' Hv' Hne. congruence.
  - destruct (buffer_text_found data bid start Hstart Hpos)
      as (tl & bc & Hdec & Htext).
    exists tl, bc. split; [done|]. split; [done|]. cbv zeta in *.
    split; [apply window_at_length|]. split; [exact Hdec|].
    rewrite Htext in Hv. injection Hv as <-.
    set (window := window_at data start) in *.
    set (text_pos := find window text_marker) in *.
    assert (0 ≤ text_pos)%Z as Hnonneg.
    { unfold text_pos, find.
      destruct (find_from_range text_marker window 0) as [?|?]; [done|lia]. }
    assert (0 ≤ tl ∧ 0 ≤ bc)%Z as [Htl Hbc].
    { pose proof (decode_varint_length_at window
                    (Z.to_nat (text_pos + len text_marker))) as Hat.
      rewrite Z2Nat.id in Hat by (unfold len; lia).
      rewrite Hdec in Hat. injection Hat as Hat.
      pose proof (varint_reference_range window
                    (Z.to_nat (text_pos + len text_marker))) as Hc.
      rewrite <-Hat in Hc. simpl in Hc. lia. }
    destruct (Z.eqb_spec tl 0) as [Hz|Hz];
      [rewrite Hlook; split; [done|by intros v' [= <-]]|].
    destruct (Z.gtb_spec tl 10000) as [Hbig|Hbig];
      [rewrite Hlook; split; [done|by intros v' [= <-]]|].
    destruct (Z.gtb_spec (text_pos + len text_marker + bc + tl) (len window))
      as [Hout|Hout];
      [rewrite Hlook; split; [done|by intros v' [= <-]]|].
    cbn [orb] in Hlook. split; [lia|].
    intros v' Hv' Hne. rewrite Hlook in Hv'. injection Hv' as <-.
    split; [done|]. split; [lia|]. split; [lia|]. split; [|done].
    rewrite slice_length; unfold len in *; lia.
Qed.

(** ** The record of the specification's example *)

Lemma re_search_here r (s : bytes) : rmatch r s ≠ [] → re_search r s = Some 0.
Proof. intros Hm. destruct s; cbn [re_search]; by destruct (rmatch r _). Qed.

Lemma window_at_short (data : bytes) :
  (len data ≤ 2000)%Z → window_at data 0 = data.
Proof.
  intros Hlen. unfold window_at, slice, slice_bound, len in *.
  change (Z.of_nat 0) with 0%Z. change (0 <? 0)%Z with false. cbv iota.
  rewrite Z.add_0_l, (Z.min_l _ 2000) by lia.
  destruct (Z.ltb_spec (Z.of_nat (length data)) 0); [lia|].
  rewrite Z.min_id, Nat2Z.id, (Z.min_l 0) by lia.
  change (Z.to_nat 0) with 0. rewrite Nat.sub_0_r, drop_0. by rewrite take_ge.
Qed.

Lemma find_from_skip {A} `{EqDecision A} (a : A) (p pre s : list A) (i : Z) :
  Forall (λ b, b ≠ a) pre →
  find_from (a :: p) (pre ++ s) i = find_from (a :: p) s (i + len pre).
Proof.
  intros Hpre. revert i. induction Hpre as [|b pre Hb _ IH]; intros i.
  - unfold len. simpl. by rewrite Z.add_0_r.
  - cbn [app find_from starts_with].
    rewrite (bool_decide_eq_false_2 (a = b)) by done. cbn [andb].
    rewrite IH. f_equal. unfold len. cbn [length]. lia.
Qed.

Lemma slice_tail {A} (p q : list A) :
  slice (p ++ q) (len p) (len p + len q) = q.
Proof.
  unfold slice, slice_bound, len. rewrite length_app.
  destruct (Z.ltb_spec (Z.of_nat (length p)) 0); [lia|].
  destruct (Z.ltb_spec (Z.of_nat (length p) + Z.of_nat (length q)) 0); [lia|].
  rewrite !Z.min_l by lia.
  replace (Z.to_nat (Z.of_nat (length p) + Z.of_nat (length q)) - Z.to_nat (Z.of_nat (length p)))
    with (length q) by lia.
  by rewrite Nat2Z.id, drop_app_length, firstn_all.
Qed.

(** White space followed by something that starts otherwise splits in one
    way only. *)
Lemma space_run_unique (ws1 ws2 t1 t2 : bytes) (b1 b2 : byte) :
  Forall (λ b, cls_space b = true) ws1 → Forall (λ b, cls_space b = true) ws2 →
  head t1 = Some b1 → cls_space b1 = false →
  head t2 = Some b2 → cls_space b2 = false →
  ws1 ++ t1 = ws2 ++ t2 → ws1 = ws2 ∧ t1 = t2.
Proof.
  intros H1. revert ws2. induction H1 as [|a ws1 Ha _ IH];
    intros ws2 H2 Ht1 Hb1 Ht2 Hb2 Heq.
  - destruct H2 as [|c ws2 Hc _]; [done|]. exfalso.
    destruct t1 as [|x t1]; [done|]. simpl in Heq, Ht1. congruence.
  - destruct H2 as [|c ws2 Hc H2].
    + exfalso. destruct t2 as [|x t2]; [done|]. simpl in Heq, Ht2. congruence.
    + injection Heq as -> Heq.
      destruct (IH ws2 H2 Ht1 Hb1 Ht2 Hb2 Heq) as [-> ->]. done.
Qed.

Lemma cls_hex_not_space (b : byte) : cls_hex b = true → cls_space b = false.
Proof.
  unfold cls_hex, cls_space, in_range.
  rewrite orb_true_iff, orb_false_iff, !andb_true_iff, !andb_false_iff,
    !N.leb_le, !N.leb_gt. lia.
Qed.

Lemma cls_hex_not_t (b : byte) : cls_hex b = true → b ≠ x74.
Proof. by intros Hb ->. Qed.

Section Example.

Context (h : bytes) (Hlen : length h = 32)
  (Hhex : Forall (λ b, cls_hex b = true) h).

Let payload : bytes := text_marker ++ [x05] ++ bytes_of "Hello".
Let record : bytes := id_field ++ bytes_of "  " ++ h ++ quote :: payload.

Lemma example_head : ∃ b, head h = Some b ∧ cls_space b = false.
Proof using Hlen Hhex.
  destruct Hhex as [|b h' Hb _]; [done|].
  exists b. split; [done|by apply cls_hex_not_space].
Qed.

Lemma example_located : h ∈ buffer_ids record.
Proof using Hlen Hhex.
  assert (Forall (λ b, cls_space b = true) (bytes_of "  ")) as Hsp
    by (by repeat constructor).
  pose proof (rmatch_id_pattern_intro (bytes_of "  ") h payload
                ltac:(simpl; lia) Hsp Hlen Hhex) as Hin.
  fold record in Hin.
  destruct (rmatch id_pattern record) as [|[g rest] tl] eqn:Hm;
    [by apply elem_of_nil in Hin|].
  assert ((g, rest) ∈ rmatch id_pattern record) as Hfirst by (rewrite Hm; by left).
  apply rmatch_id_pattern_inv in Hfirst
    as (ws & bid & -> & Hrec & _ & Hws & Hbid_len & Hbid_hex).
  assert (bid = h) as ->.
  { unfold record in Hrec. apply app_inv_head in Hrec.
    destruct example_head as (b & Hb & Hbsp).
    destruct Hbid_hex as [|c bid' Hc ?]; [done|].
    destruct (space_run_unique (bytes_of "  ") ws (h ++ quote :: payload)
                ((c :: bid') ++ quote :: rest) b c) as [_ Heq]; try done.
    - by destruct h.
    - by apply cls_hex_not_space.
    - apply app_inj_1 in Heq as [Heq _]; [done|]. by rewrite Hlen. }
  unfold buffer_ids, re_findall. apply elem_of_list_to_set, list_elem_of_fmap.
  exists [h]. split; [done|]. by eapply findall_from_first.
Qed.

Lemma example_length : len record = 49%Z.
Proof using Hlen.
  unfold record, len. rewrite !length_app, Hlen. done.
Qed.

Lemma example_search : re_search (id_pattern_of h) record = Some 0.
Proof using Hlen Hhex.
  apply re_search_here. intros Hnil.
  assert (Forall (λ b, cls_space b = true) (bytes_of "  ")) as Hsp
    by (by repeat constructor).
  pose proof (rmatch_id_pattern_of_intro (bytes_of "  ") h payload
                ltac:(simpl; lia) Hsp) as Hin.
  fold record in Hin. rewrite Hnil in Hin. by apply elem_of_nil in Hin.
Qed.

Let before : bytes := id_field ++ bytes_of "  " ++ h ++ [quote].

Lemma example_split : record = before ++ payload.
Proof. unfold record, before. by rewrite <-!(assoc_L (++)). Qed.

Lemma example_before_length : len before = 38%Z.
Proof using Hlen.
  unfold before, len. rewrite !length_app, Hlen. done.
Qed.

Lemma example_find : find record text_marker = 38%Z.
Proof using Hlen Hhex.
  unfold find, text_marker. rewrite example_split.
  change (bytes_of "text" ++ [quote]) with (x74 :: bytes_of "ext" ++ [quote]).
  rewrite find_from_skip.
  - rewrite example_before_length. reflexivity.
  - unfold before. repeat (apply Forall_app; split);
      [by repeat constructor..| |by repeat constructor].
    eapply Forall_impl; [exact Hhex|]. apply cls_hex_not_t.
Qed.

Lemma example_length_byte : record !! 43 = Some x05.
Proof using Hlen.
  rewrite example_split. unfold payload.
  rewrite (assoc_L (++)). apply list_lookup_middle.
  pose proof example_before_length as Hb. unfold len in Hb.
  rewrite length_app. apply Nat2Z.inj. rewrite Nat2Z.inj_add, Hb. done.
Qed.

Lemma example_text : buffer_text record h = Ok (bytes_of "Hello").
Proof using Hlen Hhex.
  pose proof (buffer_text_found record h 0 example_search) as Hfound.
  cbv zeta in Hfound. rewrite window_at_short in Hfound
    by (rewrite example_length; lia).
  rewrite example_find in Hfound.
  destruct Hfound as (tl & bc & Hdec & ->); [done|].
  change (38 + len text_marker)%Z with (Z.of_nat 43) in Hdec.
  rewrite decode_varint_length_at in Hdec. unfold varint_reference in Hdec.
  rewrite example_length_byte in Hdec. injection Hdec as <- <-.
  rewrite example_length.
  change (38 + len text_marker + 1)%Z with 44%Z.
  change (byte_val x05) with 5%Z.
  change ((5 =? 0)%Z || (5 >? 10000)%Z || (44 + 5 >? 49)%Z) with false.
  cbv iota. f_equal.
  assert (slice record 44 (44 + 5) = bytes_of "Hello") as ->; [|by vm_compute].
  rewrite example_split. unfold payload. rewrite !(assoc_L (++)).
  assert (len ((before ++ text_marker) ++ [x05]) = 44%Z) as Hl.
  { pose proof example_before_length as Hb. unfold len in *.
    rewrite !length_app, Nat2Z.inj_add, Nat2Z.inj_add, Hb. done. }
  rewrite <-Hl. change 5%Z with (len (bytes_of "Hello")). apply slice_tail.
Qed.

End Example.

(** C4: for every identifier [h] of 32 lowercase hexadecimal characters,
    the extractor run on the bytes [id], a quote, two spaces, [h], a quote,
    [text], a quote, the byte 0x05 and [Hello] returns a map that binds [h]
    to the text Hello. *)
Theorem hello_is_extracted (h : bytes) :
  length h = 32 → Forall (λ b, cls_hex b = true) h →
  ∃ buffer_texts,
    extract_buffers_by_id
      (bytes_of "id" ++ [quote] ++ bytes_of "  " ++ h ++ [quote]
       ++ bytes_of "text" ++ [quote] ++ [x05] ++ bytes_of "Hello")
    = Ok buffer_texts
    ∧ buffer_texts !! latin1_decode h = Some (bytes_of "Hello").
Proof.
  intros Hlen Hhex.
  destruct (extract_buffers_by_id_lookup
              (id_field ++ bytes_of "  " ++ h ++ quote
               :: text_marker ++ [x05] ++ bytes_of "Hello"))
    as (m & Hm & Hin & _).
  exists m. split; [exact Hm|].
  destruct (Hin h (example_located h Hlen Hhex)) as (v & Hv & Hlook).
  rewrite (example_text h Hlen Hhex) in Hv. by injection Hv as <-.
Qed.

(** ** The grammar extractor *)

Lemma in_range_ascii (lo hi : N) (b : byte) :
  (hi < 128)%N → in_range lo hi b = true → is_ascii b.
Proof.
  unfold in_range, is_ascii. rewrite andb_true_iff, !N.leb_le. lia.
Qed.

Lemma cls_grammar_ascii (b : byte) : cls_grammar b = true → is_ascii b.
Proof.
  unfold cls_grammar. rewrite !orb_true_iff.
  intros [[[H|H]|H]|H]; by eapply in_range_ascii; [|exact H].
Qed.

Lemma grammar_pattern_ascii : captures_only is_ascii grammar_pattern.
Proof.
  unfold grammar_pattern. cbn [captures_only matches_only].
  repeat split;
    first [ apply cls_hex_ascii | apply cls_grammar_ascii
          | by repeat constructor ].
Qed.

Lemma re_findall_ascii r (data : bytes) :
  captures_only is_ascii r →
  Forall (Forall (Forall is_ascii)) (re_findall r data).
Proof.
  intros Hr. apply Forall_forall. intros g Hg.
  apply findall_from_elem in Hg as (n & rest & tl & Hm).
  apply (rmatch_captures is_ascii r (drop n data) g rest Hr).
  rewrite Hm. by left.
Qed.

Lemma group_ascii (n : nat) (m : list bytes) :
  Forall (Forall is_ascii) m → Forall is_ascii (group n m).
Proof.
  intros Hm. unfold group. destruct (m !! n) as [g|] eqn:Hg; [|done].
  simpl. eapply Forall_lookup_1; [exact Hm|exact Hg].
Qed.

(** The loop returns a map in which an identifier is bound to the grammar
    of its last match, and every other key is as before the loop. *)
Lemma grammars_loop_lookup (matches : list (list bytes)) (acc : gmap str str) :
  Forall (Forall (Forall is_ascii)) matches →
  ∃ grammars,
    grammars_loop matches acc = Ok grammars
    ∧ (∀ pre m post,
         matches = pre ++ m :: post →
         (∀ m', m' ∈ post → group 0 m' ≠ group 0 m) →
         grammars !! latin1_decode (group 0 m) = Some (latin1_decode (group 1 m)))
    ∧ (∀ k, (∀ m, m ∈ matches → latin1_decode (group 0 m) ≠ k) →
            grammars !! k = acc !! k).
Proof.
  revert acc. induction matches as [|m0 rest IH]; intros acc Hascii.
  - exists acc. split; [done|]. split; [|done].
    intros pre m post Heq. by destruct pre.
  - apply Forall_cons in Hascii as [Hm0 Hascii].
    destruct (IH (<[latin1_decode (group 0 m0) := latin1_decode (group 1 m0)]> acc)
                Hascii) as (grammars & Hloop & Hlast & Hother).
    exists grammars. cbn [grammars_loop].
    rewrite !utf8_decode_ascii by (by apply group_ascii).
    split; [exact Hloop|]. split.
    + intros [|m1 pre] m post Heq Hpost.
      * injection Heq as -> ->. rewrite Hother; [apply lookup_insert_eq|].
        intros m' Hm' Heq%latin1_decode_inj. by apply (Hpost m').
      * injection Heq as -> ->. by apply (Hlast pre m post).
    + intros k Hk. rewrite Hother.
      * apply lookup_insert_ne, Hk. by left.
      * intros m Hm. apply Hk. by right.
Qed.

Lemma extract_buffer_grammars_total (data : bytes) :
  ∃ grammars, extract_buffer_grammars data = Ok grammars.
Proof.
  destruct (grammars_loop_lookup (re_findall grammar_pattern data) ∅)
    as (grammars & Hg & _); [|by exists grammars].
  apply re_findall_ascii, grammar_pattern_ascii.
Qed.

(** ** The scan of the storage files *)

Lemma scan_files_total (files : list (result bytes))
    (all_buffers : gmap str bytes) (all_grammars : gmap str str) :
  ∃ buffers grammars, scan_files files all_buffers all_grammars = Ok (buffers, grammars).
Proof.
  revert all_buffers all_grammars.
  induction files as [|[data|e] rest IH]; intros all_buffers all_grammars.
  - by eexists _, _.
  - cbn [scan_files].
    destruct (extract_buffers_by_id_lookup data) as (b & -> & _).
    destruct (extract_buffer_grammars_total data) as (g & ->). apply IH.
  - apply IH.
Qed.

Lemma scan_files_app (files1 files2 : list (result bytes))
    (all_buffers : gmap str bytes) (all_grammars : gmap str str) :
  scan_files (files1 ++ files2) all_buffers all_grammars
  = totals ← scan_files files1 all_buffers all_grammars;
    scan_files files2 totals.1 totals.2.
Proof.
  revert all_buffers all_grammars.
  induction files1 as [|[data|e] rest IH]; intros all_buffers all_grammars.
  - done.
  - cbn [app scan_files].
    destruct (extract_buffers_by_id data) as [b|]; [|done].
    destruct (extract_buffer_grammars data) as [g|]; [|done]. apply IH.
  - apply IH.
Qed.

(** C5: grammar merging is last-write-wins. Within a buffer the map of
    [extract_buffer_grammars] binds an identifier to the grammar of its
    last match; [dict.update] overwrites the running grammar of every
    identifier the file's map binds, and leaves the others; and after the
    scan the grammar of an identifier is the one of the last scanned file
    that yields a grammar for it. *)
Theorem grammar_last_write_wins :
  (∀ data : bytes,
     ∃ grammars,
       extract_buffer_grammars data = Ok grammars
       ∧ ∀ pre m post,
           re_findall grammar_pattern data = pre ++ m :: post →
           (∀ m', m' ∈ post → group 0 m' ≠ group 0 m) →
           ∃ key grammar,
             utf8_decode strict (group 0 m) = Ok key
             ∧ utf8_decode strict (group 1 m) = Ok grammar
             ∧ grammars !! key = Some grammar)
  ∧ (∀ (all_grammars grammars : gmap str str) (k : str),
       dict_update all_grammars grammars !! k
       = match grammars !! k with
         | Some g => Some g
         | None => all_grammars !! k
         end)
  ∧ (∀ (earlier later : list (result bytes)) (data : bytes)
       (all_buffers : gmap str bytes) (all_grammars grammars : gmap str str)
       (k g : str),
       extract_buffer_grammars data = Ok grammars →
       grammars !! k = Some g →
       (∀ data' grammars', Ok data' ∈ later →
          extract_buffer_grammars data' = Ok grammars' → grammars' !! k = None) →
       ∃ buffers final,
         scan_files (earlier ++ Ok data :: later) all_buffers all_grammars
         = Ok (buffers, final)
         ∧ final !! k = Some g).
Proof.
  split; [|split].
  - intros data.
    destruct (grammars_loop_lookup (re_findall grammar_pattern data) ∅)
      as (grammars & Hg & Hlast & _);
      [apply re_findall_ascii, grammar_pattern_ascii|].
    exists grammars. split; [exact Hg|].
    intros pre m post Heq Hpost.
    assert (Forall (Forall is_ascii) m) as Hm.
    { pose proof (re_findall_ascii _ data grammar_pattern_ascii) as Hall.
      rewrite Heq in Hall. apply Forall_app in Hall as [_ Hall].
      by apply Forall_cons in Hall as [? _]. }
    exists (latin1_decode (group 0 m)), (latin1_decode (group 1 m)).
    rewrite !utf8_decode_ascii by (by apply group_ascii).
    split; [done|]. split; [done|]. by apply (Hlast pre m post).
  - apply dict_update_lookup.
  - intros earlier later data all_buffers all_grammars grammars k g Hdata Hk Hlater.
    rewrite scan_files_app.
    destruct (scan_files_total earlier all_buffers all_grammars)
      as (b1 & g1 & ->). cbn [mbind result_bind fst snd scan_files].
    destruct (extract_buffers_by_id_lookup data) as (b & -> & _).
    rewrite Hdata. cbn [mbind result_bind].
    assert (dict_update g1 grammars !! k = Some g) as Hnow
      by (by rewrite dict_update_lookup, Hk).
    revert Hnow. generalize (merge_buffers b1 b) (dict_update g1 grammars).
    clear Hdata Hk. induction later as [|[data'|e] later IH]; intros bs gs Hnow.
    + by eexists _, _.
    + cbn [scan_files].
      destruct (extract_buffers_by_id_lookup data') as (b' & -> & _).
      destruct (extract_buffer_grammars_total data') as (g' & Hg').
      rewrite Hg'. cbn [mbind result_bind]. apply IH.
      * intros d gr Hin. apply Hlater. by right.
      * rewrite dict_update_lookup, (Hlater data' g'); [done|by left|done].
    + cbn [scan_files]. apply IH; [|done].
      intros d gr Hin. apply Hlater. by right.
Qed.

(** * Further properties of the code *)

(** ** The value the varint decoder returns *)

Lemma Z_lor_low (a b k : Z) :
  (0 ≤ k)%Z → (0 ≤ a < 2 ^ k)%Z → Z.lor a (Z.shiftl b k) = (a + b * 2 ^ k)%Z.
Proof.
  intros Hk Ha.
  assert (Z.land a (Z.shiftl b k) = 0%Z) as Hdisjoint.
  { apply Z.bits_inj'. intros n Hn. rewrite Z.land_spec, Z.bits_0.
    destruct (Z.lt_ge_cases n k) as [Hlt|Hge].
    - rewrite (Z.shiftl_spec_low b k n Hlt). apply andb_false_r.
    - destruct (decide (a = 0%Z)) as [->|Hne]; [by rewrite Z.bits_0|].
      rewrite (Z.bits_above_log2 a n); [done|lia|].
      assert (Z.log2 a < k)%Z by (apply Z.log2_lt_pow2; lia). lia. }
  rewrite <-Z.lxor_lor, <-Z.add_nocarry_lxor by done.
  by rewrite Z.shiftl_mul_pow2.
Qed.

Lemma byte_val_range (b : byte) : (0 ≤ byte_val b ≤ 255)%Z.
Proof. unfold byte_val. pose proof (Byte.to_N_bounded b). lia. Qed.

(** X1: at a position of the buffer the decoder returns a length between 0
    and 32767 and consumes at most two bytes, which lie inside the buffer.
    It consumes nothing exactly when there is nothing to decode, and then
    reports the length 0; a single byte below 128 is its own value; two
    bytes [b1] (128 or more) and [b2] stand for [b1 - 128 + 128 * b2]. *)
Theorem decode_varint_length_value (data : bytes) (offset : nat) :
  ∃ length consumed,
    decode_varint_length data (Z.of_nat offset) = Ok (length, consumed)
    ∧ (0 ≤ length ≤ 32767)%Z
    ∧ (consumed = 0%Z ∨ (0 < consumed ∧ Z.of_nat offset + consumed ≤ len data)%Z)
    ∧ ((consumed = 0%Z ∧ length = 0%Z
        ∧ (data !! offset = None
           ∨ ∃ b1, data !! offset = Some b1 ∧ (128 ≤ byte_val b1)%Z
                   ∧ data !! S offset = None))
       ∨ (consumed = 1%Z
          ∧ ∃ b1, data !! offset = Some b1 ∧ length = byte_val b1
                  ∧ (length < 128)%Z)
       ∨ (consumed = 2%Z
          ∧ ∃ b1 b2, data !! offset = Some b1 ∧ data !! S offset = Some b2
                     ∧ (128 ≤ byte_val b1)%Z
                     ∧ length = (byte_val b1 - 128 + 128 * byte_val b2)%Z)).
Proof.
  rewrite decode_varint_length_at. unfold varint_reference.
  destruct (data !! offset) as [b1|] eqn:H1.
  - pose proof (byte_val_range b1) as Hb1.
    pose proof (lookup_lt_Some _ _ _ H1) as Hlt1.
    destruct (Z.ltb_spec (byte_val b1) 128) as [Hsmall|Hbig].
    + eexists _, _. split; [done|]. split; [lia|].
      split; [right; unfold len; lia|]. right. left. split; [done|].
      by exists b1.
    + destruct (data !! S offset) as [b2|] eqn:H2.
      * pose proof (byte_val_range b2) as Hb2.
        pose proof (lookup_lt_Some _ _ _ H2) as Hlt2.
        assert (Z.lor (Z.land (byte_val b1) 127) (Z.shiftl (byte_val b2) 7)
                = (byte_val b1 - 128 + 128 * byte_val b2)%Z) as Hvalue.
        { change 127%Z with (Z.ones 7). rewrite Z.land_ones by done.
          rewrite Z_lor_low; [|done|apply Z.mod_pos_bound; done].
          change (2 ^ 7)%Z with 128%Z.
          rewrite (Z.mod_eq _ 128) by done.
          assert (byte_val b1 / 128 = 1)%Z as ->; [|lia].
          symmetry. apply (Z.div_unique _ 128 1 (byte_val b1 - 128)); lia. }
        eexists _, _. split; [done|]. rewrite Hvalue. split; [lia|].
        split; [right; unfold len; lia|]. right. right. split; [done|].
        by exists b1, b2.
      * eexists _, _. split; [done|]. split; [lia|]. split; [by left|].
        left. split; [done|]. split; [done|]. right. by exists b1.
  - eexists _, _. split; [done|]. split; [lia|]. split; [by left|].
    left. split; [done|]. split; [done|]. by left.
Qed.

(** ** The keys of the extractor's map *)

Lemma latin1_decode_hex (bid : bytes) :
  Forall (λ b, cls_hex b = true) bid → Forall is_hex_char (latin1_decode bid).
Proof.
  intros Hhex. unfold latin1_decode. apply Forall_fmap.
  eapply Forall_impl; [exact Hhex|]. intros b. unfold cls_hex, in_range, is_hex_char.
  simpl. rewrite orb_true_iff, !andb_true_iff, !N.leb_le. lia.
Qed.

Lemma texts_loop_keys (data : bytes) (ids : list bytes)
    (acc buffer_texts : gmap str bytes) (k : str) :
  texts_loop data ids acc = Ok buffer_texts →
  is_Some (buffer_texts !! k) →
  is_Some (acc !! k) ∨ ∃ bid, bid ∈ ids ∧ utf8_decode strict bid = Ok k.
Proof.
  revert acc. induction ids as [|bid rest IH]; intros acc Hloop Hk.
  - injection Hloop as <-. by left.
  - cbn [texts_loop] in Hloop.
    destruct (buffer_text data bid) as [content|]; [|done].
    destruct (utf8_decode strict bid) as [key|] eqn:Hkey; [|done].
    cbn [mbind result_bind] in Hloop.
    destruct (IH _ Hloop Hk) as [Hacc|(bid' & Hin & Hdec)].
    + destruct (decide (key = k)) as [->|Hne].
      * right. exists bid. split; [by left|done].
      * left. by rewrite lookup_insert_ne in Hacc.
    + right. exists bid'. split; [by right|done].
Qed.

(** X2: the extractor raises for no input. The keys of the map it returns
    are exactly the identifiers the locator found, decoded; each is 32
    characters of [0-9a-f] and stands in the buffer between the bytes
    [id], a quote and white space before it and a quote after it. *)
Theorem extract_buffers_by_id_keys (data : bytes) :
  ∃ buffer_texts,
    extract_buffers_by_id data = Ok buffer_texts
    ∧ ∀ key,
        is_Some (buffer_texts !! key)
        ↔ ∃ bid ws,
            bid ∈ buffer_ids data ∧ key = latin1_decode bid
            ∧ length key = 32 ∧ Forall is_hex_char key
            ∧ ws ≠ [] ∧ Forall (λ b, cls_space b = true) ws
            ∧ occurs_in (id_field ++ ws ++ bid ++ [quote]) data.
Proof.
  destruct (extract_buffers_by_id_lookup data) as (m & Hm & Hin & _).
  exists m. split; [exact Hm|]. intros key. split.
  - intros Hkey. unfold extract_buffers_by_id in Hm.
    destruct (texts_loop_keys _ _ _ _ key Hm Hkey) as [Hempty|(bid & Hbid & Hdec)].
    { rewrite lookup_empty in Hempty. by destruct Hempty. }
    apply elem_of_elements in Hbid.
    destruct (buffer_ids_elem _ _ Hbid)
      as (n & ws & rest & Hdrop & Hws1 & Hws & Hlen & Hhex).
    rewrite utf8_decode_ascii in Hdec
      by (eapply Forall_impl; [exact Hhex|apply cls_hex_ascii]).
    injection Hdec as <-. exists bid, ws.
    split; [done|]. split; [done|].
    split; [by unfold latin1_decode; rewrite length_map|].
    split; [by apply latin1_decode_hex|].
    split; [intros ->; simpl in Hws1; lia|]. split; [done|].
    exists (take n data), rest. rewrite <-(take_drop n data) at 1.
    rewrite Hdrop. by rewrite <-!(assoc_L (++)).
  - intros (bid & ws & Hbid & -> & _).
    destruct (Hin bid Hbid) as (v & _ & ->). by eexists.
Qed.

(** ** The largest payload the extractor recovers *)

Lemma rmatch_id_pattern_of_inv (bid s : bytes) (g : list bytes) (rest : bytes) :
  (g, rest) ∈ rmatch (id_pattern_of bid) s →
  ∃ ws, s = id_field ++ ws ++ bid ++ quote :: rest
        ∧ 1 ≤ length ws ∧ Forall (λ b, cls_space b = true) ws.
Proof.
  unfold id_pattern_of. intros Hin.
  apply rmatch_Seq in Hin as (g1 & s1 & g2 & H1 & Hin & ->).
  apply rmatch_Lit in H1 as [-> ->].
  apply rmatch_Seq in Hin as (g1 & s2 & g3 & H1 & Hin & ->).
  apply rmatch_Rep in H1 as (-> & k & Hk & ->).
  apply elem_of_greedy in Hk as (Hk1 & Hk2 & _).
  apply rmatch_Seq in Hin as (g1 & s3 & g4 & H1 & Hin & ->).
  apply rmatch_Lit in H1 as [-> Hs2]. apply rmatch_Lit in Hin as [-> ->].
  destruct (run_take cls_space s1 k Hk2) as [Hlen Hall].
  exists (take k s1). split; [|by rewrite Hlen].
  f_equal. rewrite <-(take_drop k s1) at 1. by rewrite Hs2.
Qed.

Lemma window_at_take (data : bytes) (start : nat) :
  start ≤ length data → window_at data start = take 2000 (drop start data).
Proof.
  intros Hstart. unfold window_at, slice, slice_bound, len.
  destruct (Z.ltb_spec (Z.of_nat start) 0); [lia|].
  destruct (Z.ltb_spec (Z.of_nat (length data) `min` (Z.of_nat start + 2000)) 0);
    [lia|].
  replace (Z.to_nat (Z.of_nat start `min` Z.of_nat (length data))) with start by lia.
  destruct (decide (length data ≤ start + 2000)).
  - rewrite !take_ge; [done|rewrite length_drop; lia..].
  - f_equal. lia.
Qed.

Lemma varint_reference_two_bytes (data : bytes) (offset : nat) :
  (128 ≤ (varint_reference data offset).1)%Z →
  (varint_reference data offset).2 = 2%Z.
Proof.
  unfold varint_reference. destruct (data !! offset) as [b1|]; [|simpl; lia].
  destruct (Z.ltb_spec (byte_val b1) 128); [simpl; lia|].
  destruct (data !! S offset); simpl; [done|lia].
Qed.

(** The text marker cannot stand inside the identifier field: in the window
    of a found identifier it is at position 37 or later. *)
Lemma text_marker_after_id (data bid : bytes) (start : nat) :
  Forall (λ b, cls_hex b = true) bid → length bid = 32 →
  re_search (id_pattern_of bid) data = Some start →
  find (window_at data start) text_marker ≠ (-1)%Z →
  (37 ≤ find (window_at data start) text_marker)%Z.
Proof.
  intros Hhex Hlen Hsearch Hfound.
  apply re_search_Some in Hsearch as [Hstart Hmatch].
  destruct (rmatch (id_pattern_of bid) (drop start data)) as [|[g rest] tl] eqn:Hm;
    [done|].
  assert ((g, rest) ∈ rmatch (id_pattern_of bid) (drop start data)) as Hin
    by (rewrite Hm; by left).
  apply rmatch_id_pattern_of_inv in Hin as (ws & Hdrop & Hws1 & Hws).
  set (field := id_field ++ ws ++ bid ++ [quote]).
  assert (drop start data = field ++ rest) as Hsplit
    by (rewrite Hdrop; unfold field; by rewrite <-!(assoc_L (++))).
  assert (Forall (λ b, b ≠ x74) field) as Hnot.
  { unfold field. apply Forall_app; split; [by repeat constructor|].
    apply Forall_app; split;
      [eapply Forall_impl; [exact Hws|]; by intros b Hb ->|].
    apply Forall_app; split; [|by repeat constructor].
    eapply Forall_impl; [exact Hhex|]. by intros b Hb ->. }
  assert (37 ≤ length field) as Hfield.
  { unfold field, id_field. rewrite !length_app, Hlen. simpl. lia. }
  rewrite window_at_take in * by done. rewrite Hsplit in *.
  unfold find, text_marker in *.
  change (bytes_of "text" ++ [quote]) with (x74 :: bytes_of "ext" ++ [quote]) in *.
  rewrite take_app in *.
  destruct (decide (length field ≤ 2000)) as [Hshort|Hlong].
  - rewrite (take_ge field) in * by lia. rewrite find_from_skip in * by done.
    destruct (find_from_range (x74 :: bytes_of "ext" ++ [quote])
                (take (2000 - length field) rest) (0 + len field)) as [?|?];
      [done|]. unfold len in *. lia.
  - exfalso. apply Hfound.
    replace (2000 - length field) with 0 by lia. rewrite take_0, app_nil_r.
    rewrite <-(app_nil_r (take 2000 field)).
    rewrite find_from_skip by (by apply Forall_take). done.
Qed.

(** X3: a payload is recovered only if it is short. For a located
    identifier whose text marker is found, a declared length above 1956
    always leaves the empty text in the map: the window of 2000 bytes has
    at least 37 bytes of identifier field, the 5 of the marker and the
    length prefix before the payload. In particular the ceiling of 10000
    never decides. *)
Theorem long_payload_is_dropped (data bid : bytes) (start : nat)
    (text_length bytes_consumed : Z) :
  bid ∈ buffer_ids data →
  re_search (id_pattern_of bid) data = Some start →
  find (window_at data start) text_marker ≠ (-1)%Z →
  decode_varint_length (window_at data start)
    (find (window_at data start) text_marker + len text_marker)
  = Ok (text_length, bytes_consumed) →
  (1956 < text_length)%Z →
  ∃ buffer_texts,
    extract_buffers_by_id data = Ok buffer_texts
    ∧ buffer_texts !! latin1_decode bid = Some [].
Proof.
  intros Hbid Hsearch Hfound Hdec Hlong.
  destruct (extract_buffers_by_id_lookup data) as (m & Hm & Hin & _).
  exists m. split; [exact Hm|].
  destruct (Hin bid Hbid) as (v & Hv & ->). f_equal.
  destruct (buffer_ids_hex _ _ Hbid) as [Hlen Hhex].
  pose proof (text_marker_after_id data bid start Hhex Hlen Hsearch Hfound) as Hpos.
  destruct (buffer_text_found data bid start Hsearch Hfound)
    as (tl & bc & Hdec' & Htext). cbv zeta in Hdec', Htext.
  rewrite Hdec in Hdec'. injection Hdec' as Htl Hbc. subst tl bc.
  rewrite Htext in Hv. injection Hv as <-.
  pose proof (window_at_length data start) as Hwin.
  assert (len text_marker = 5%Z) as Hmarker by done.
  assert (bytes_consumed = 2%Z) as ->.
  { pose proof (decode_varint_length_at (window_at data start)
      (Z.to_nat (find (window_at data start) text_marker + len text_marker)))
      as Hat.
    rewrite Z2Nat.id, Hdec in Hat by lia. injection Hat as Hat.
    pose proof (varint_reference_two_bytes (window_at data start)
      (Z.to_nat (find (window_at data start) text_marker + len text_marker)))
      as Htwo.
    rewrite <-Hat in Htwo. apply Htwo. simpl. lia. }
  destruct (text_length =? 0)%Z; [done|].
  destruct (text_length >? 10000)%Z; [done|]. cbn [orb].
  destruct (Z.gtb_spec
    (find (window_at data start) text_marker + len text_marker
     + 2 + text_length) (len (window_at data start))); [done|lia].
Qed.

(** ** The shape of the grammar extractor's map *)

Lemma rmatch_grammar_pattern_inv (s : bytes) (g : list bytes) (rest : bytes) :
  (g, rest) ∈ rmatch grammar_pattern s →
  ∃ bid ctrl kind tag,
    g = [bid; kind ++ bytes_of "." ++ tag]
    ∧ s = bid ++ quote :: ctrl ++ (kind ++ bytes_of "." ++ tag) ++ rest
    ∧ length bid = 32 ∧ Forall (λ b, cls_hex b = true) bid
    ∧ 1 ≤ length ctrl ≤ 5 ∧ Forall (λ b, cls_space_ctrl b = true) ctrl
    ∧ (kind = bytes_of "text" ∨ kind = bytes_of "source")
    ∧ 1 ≤ length tag ∧ Forall (λ b, cls_grammar b = true) tag.
Proof.
  unfold grammar_pattern. intros Hin.
  apply rmatch_Seq in Hin as (g1 & s1 & g2 & H1 & Hin & ->).
  apply rmatch_Grp in H1 as (g' & H1 & ->).
  apply rmatch_Rep in H1 as (-> & k & Hk & ->).
  apply elem_of_greedy in Hk as (Hlo & Hrun & Hhi).
  specialize (Hhi 32 eq_refl). assert (k = 32) as -> by lia.
  destruct (run_take cls_hex s 32 Hrun) as [Hlen_id Hhex].
  apply rmatch_Seq in Hin as (g1 & s2 & g3 & H1 & Hin & ->).
  apply rmatch_Lit in H1 as [-> Hs1].
  apply rmatch_Seq in Hin as (g1 & s3 & g4 & H1 & Hin & ->).
  apply rmatch_Rep in H1 as (-> & kc & Hkc & ->).
  apply elem_of_greedy in Hkc as (Hc1 & Hcrun & Hc5).
  specialize (Hc5 5 eq_refl).
  destruct (run_take cls_space_ctrl s2 kc Hcrun) as [Hlen_c Hctrl].
  apply rmatch_Grp in Hin as (g' & Hin & ->).
  apply rmatch_Seq in Hin as (g1 & s4 & g5 & H1 & Hin & ->).
  apply rmatch_Seq in Hin as (g2 & s5 & g6 & H2 & Hin & ->).
  apply rmatch_Lit in H2 as [-> Hs4].
  apply rmatch_Rep in Hin as (-> & kt & Hkt & ->).
  apply elem_of_greedy in Hkt as (Ht1 & Htrun & _).
  destruct (run_take cls_grammar s5 kt Htrun) as [Hlen_t Htag].
  assert (∃ kind, (kind = bytes_of "text" ∨ kind = bytes_of "source")
                  ∧ g1 = [] ∧ drop kc s2 = kind ++ s4) as (kind & Hkind & -> & Hs3).
  { apply rmatch_Alt in H1 as [H1|H1]; apply rmatch_Lit in H1 as [-> ->];
      eexists; (split; [|done]); [by left|by right]. }
  exists (take 32 s), (take kc s2), kind, (take kt s5).
  assert (drop kc s2 = (kind ++ bytes_of "." ++ take kt s5) ++ drop kt s5) as Hgr.
  { rewrite Hs3, Hs4. rewrite <-!(assoc_L (++)). by rewrite take_drop. }
  split.
  - rewrite length_drop. cbn [app]. f_equal; [|f_equal].
    + f_equal. rewrite length_take in Hlen_id. lia.
    + rewrite Hgr, length_app, Nat.add_sub, take_app_length. done.
  - split.
    + rewrite <-(take_drop 32 s) at 1. f_equal. rewrite Hs1. cbn [app]. f_equal.
      rewrite <-(take_drop kc s2) at 1. f_equal. exact Hgr.
    + rewrite Hlen_c, Hlen_t. repeat split; try done; lia.
Qed.

Lemma grammars_loop_entries (matches : list (list bytes))
    (acc grammars : gmap str str) (k g : str) :
  grammars_loop matches acc = Ok grammars → grammars !! k = Some g →
  acc !! k = Some g
  ∨ ∃ m, m ∈ matches ∧ utf8_decode strict (group 0 m) = Ok k
         ∧ utf8_decode strict (group 1 m) = Ok g.
Proof.
  revert acc. induction matches as [|m rest IH]; intros acc Hloop Hk.
  - injection Hloop as <-. by left.
  - cbn [grammars_loop] in Hloop.
    destruct (utf8_decode strict (group 0 m)) as [key|] eqn:Hkey; [|done].
    destruct (utf8_decode strict (group 1 m)) as [grammar|] eqn:Hgr; [|done].
    cbn [mbind result_bind] in Hloop.
    destruct (IH _ Hloop Hk) as [Hacc|(m' & Hin & H0 & H1)].
    + destruct (decide (key = k)) as [->|Hne].
      * rewrite lookup_insert_eq in Hacc. injection Hacc as ->.
        right. exists m. split; [by left|done].
      * left. by rewrite lookup_insert_ne in Hacc.
    + right. exists m'. split; [by right|done].
Qed.

Lemma latin1_decode_app (s t : bytes) :
  latin1_decode (s ++ t) = latin1_decode s ++ latin1_decode t.
Proof. unfold latin1_decode. apply map_app. Qed.

(** X4: the grammar extractor raises for no input. Every key of its map is
    32 characters of [0-9a-f], and every grammar is [text.] or [source.]
    followed by at least one character of [a-z0-9.-]; in the buffer the
    identifier is followed by a quote, one to five control or white-space
    bytes, and the grammar. *)
Theorem extract_buffer_grammars_shape (data : bytes) :
  ∃ grammars,
    extract_buffer_grammars data = Ok grammars
    ∧ ∀ key grammar,
        grammars !! key = Some grammar →
        length key = 32 ∧ Forall is_hex_char key
        ∧ (∃ tag, (grammar = str_of "text." ++ tag
                   ∨ grammar = str_of "source." ++ tag)
                  ∧ tag ≠ [] ∧ Forall is_grammar_char tag)
        ∧ ∃ bid ctrl tag_bytes,
            key = latin1_decode bid ∧ grammar = latin1_decode tag_bytes
            ∧ 1 ≤ length ctrl ≤ 5
            ∧ Forall (λ b, cls_space_ctrl b = true) ctrl
            ∧ occurs_in (bid ++ quote :: ctrl ++ tag_bytes) data.
Proof.
  destruct (extract_buffer_grammars_total data) as [grammars Hg].
  exists grammars. split; [exact Hg|]. intros key grammar Hlook.
  destruct (grammars_loop_entries _ _ _ _ _ Hg Hlook) as [Hempty|(m & Hm & H0 & H1)].
  { by rewrite lookup_empty in Hempty. }
  apply findall_from_elem in Hm as (n & rest & tl & Hmatch).
  assert ((m, rest) ∈ rmatch grammar_pattern (drop n data)) as Hin
    by (rewrite Hmatch; by left).
  apply rmatch_grammar_pattern_inv in Hin
    as (bid & ctrl & kind & tag & -> & Hdrop & Hlen & Hhex & Hctrl_len & Hctrl
        & Hkind & Htag_len & Htag).
  unfold group in H0, H1. cbn in H0, H1.
  assert (Forall is_ascii tag) as Htag_ascii
    by (eapply Forall_impl; [exact Htag|apply cls_grammar_ascii]).
  assert (Forall is_ascii kind) as Hkind_ascii
    by (destruct Hkind as [-> | ->]; by repeat constructor).
  rewrite utf8_decode_ascii in H0
    by (eapply Forall_impl; [exact Hhex|apply cls_hex_ascii]).
  rewrite utf8_decode_ascii in H1.
  2:{ apply Forall_app; split; [done|]. by constructor. }
  injection H0 as <-. injection H1 as <-.
  split; [by unfold latin1_decode; rewrite length_map|].
  split; [by apply latin1_decode_hex|]. split.
  - exists (latin1_decode tag). split; [|split].
    + rewrite !latin1_decode_app.
      destruct Hkind as [-> | ->]; [left|right]; done.
    + destruct tag; [simpl in Htag_len; lia|done].
    + unfold latin1_decode. apply Forall_fmap.
      eapply Forall_impl; [exact Htag|]. intros b.
      unfold cls_grammar, in_range, is_grammar_char. simpl.
      rewrite !orb_true_iff, !andb_true_iff, !N.leb_le. lia.
  - exists bid, ctrl, (kind ++ bytes_of "." ++ tag).
    split; [reflexivity|]. split; [unfold bytes_of; simpl; reflexivity|].
    split; [exact Hctrl_len|]. split; [exact Hctrl|].
    exists (take n data), rest. rewrite <-(take_drop n data) at 1.
    rewrite Hdrop. f_equal. rewrite <-!(assoc_L (++)). cbn [app].
    by rewrite <-!(assoc_L (++)).
Qed.

(** ** The UTF-8 codec: what is decoded can be encoded, and back *)

Ltac div_lia :=
  repeat match goal with f : N → bool |- _ => clear f end;
  zify; Z.to_euclidean_division_equations; lia.

Ltac compare_cases :=
  repeat match goal with
         | H : context [(?a <? ?b)%N] |- _ => destruct (N.ltb_spec a b)
         | H : context [(?a <=? ?b)%N] |- _ => destruct (N.leb_spec a b)
         | H : context [(?a =? ?b)%N] |- _ => destruct (N.eqb_spec a b)
         | |- context [(?a <? ?b)%N] => destruct (N.ltb_spec a b)
         | |- context [(?a <=? ?b)%N] => destruct (N.leb_spec a b)
         | |- context [(?a =? ?b)%N] => destruct (N.eqb_spec a b)
         end.

Lemma N_lor_low (a b k : N) :
  (a < 2 ^ k)%N → N.lor (N.shiftl b k) a = (b * 2 ^ k + a)%N.
Proof.
  intros Ha.
  assert (N.land (N.shiftl b k) a = 0%N) as Hdisjoint.
  { apply N.bits_inj. intros n. rewrite N.land_spec, N.bits_0.
    destruct (N.lt_ge_cases n k) as [Hlt|Hge].
    - by rewrite (N.shiftl_spec_low b k n Hlt).
    - destruct (decide (a = 0%N)) as [->|Hne];
        [by rewrite N.bits_0, andb_false_r|].
      rewrite (N.bits_above_log2 a n); [apply andb_false_r|].
      assert (N.log2 a < k)%N by (apply N.log2_lt_pow2; lia). lia. }
  rewrite <-N.lxor_lor, <-N.add_nocarry_lxor by done.
  by rewrite N.shiftl_mul_pow2.
Qed.

Lemma N_lor_high (h x k : N) :
  (x < 2 ^ k)%N → N.lor (h * 2 ^ k) x = (h * 2 ^ k + x)%N.
Proof. intros Hx. rewrite <-(N_lor_low x h k Hx). by rewrite N.shiftl_mul_pow2. Qed.

Lemma low6_mod (b : byte) : low6 b = (Byte.to_N b mod 64)%N.
Proof. unfold low6. change 0x3F%N with (N.ones 6). by rewrite N.land_ones. Qed.

Ltac norm_pow :=
  change (2 ^ 3)%N with 8%N; change (2 ^ 4)%N with 16%N;
  change (2 ^ 5)%N with 32%N; change (2 ^ 6)%N with 64%N;
  change (2 ^ 12)%N with 4096%N; change (2 ^ 18)%N with 262144%N.

Lemma code2_value (b1 b2 : byte) :
  code2 b1 b2 = ((Byte.to_N b1 mod 32) * 64 + Byte.to_N b2 mod 64)%N.
Proof.
  unfold code2. rewrite low6_mod. change 0x1F%N with (N.ones 5).
  rewrite N.land_ones, N_lor_low; [done|]. apply N.mod_lt. discriminate.
Qed.

Lemma code3_value (b1 b2 b3 : byte) :
  code3 b1 b2 b3
  = ((Byte.to_N b1 mod 16) * 4096 + (Byte.to_N b2 mod 64) * 64
     + Byte.to_N b3 mod 64)%N.
Proof.
  unfold code3. rewrite !low6_mod. change 0x0F%N with (N.ones 4).
  rewrite N.land_ones.
  rewrite (N_lor_low (Byte.to_N b3 mod 64)) by (apply N.mod_lt; discriminate).
  rewrite N_lor_low; norm_pow; div_lia.
Qed.

Lemma code4_value (b1 b2 b3 b4 : byte) :
  code4 b1 b2 b3 b4
  = ((Byte.to_N b1 mod 8) * 262144 + (Byte.to_N b2 mod 64) * 4096
     + (Byte.to_N b3 mod 64) * 64 + Byte.to_N b4 mod 64)%N.
Proof.
  unfold code4. rewrite !low6_mod. change 0x07%N with (N.ones 3).
  rewrite N.land_ones.
  rewrite (N_lor_low (Byte.to_N b4 mod 64)) by (apply N.mod_lt; discriminate).
  rewrite (N_lor_low _ (Byte.to_N b2 mod 64)) by (norm_pow; div_lia).
  rewrite N_lor_low; norm_pow; div_lia.
Qed.

Lemma to_N_byte_of_N (n : N) : Byte.to_N (byte_of_N n) = (n mod 256)%N.
Proof.
  unfold byte_of_N. destruct (Byte.of_N (n mod 256)) as [b|] eqn:Hb.
  - by apply Byte.to_of_N.
  - apply Byte.of_N_None_iff in Hb.
    assert (n mod 256 < 256)%N as Hlt by (apply N.mod_lt; discriminate).
    clear -Hb Hlt. lia.
Qed.

Lemma to_N_trail (n : N) : Byte.to_N (trail n) = (128 + n mod 64)%N.
Proof.
  unfold trail. rewrite to_N_byte_of_N. change 0x3F%N with (N.ones 6).
  rewrite N.land_ones. change 0x80%N with (2 * 2 ^ 6)%N.
  rewrite N_lor_high by (apply N.mod_lt; discriminate).
  norm_pow. div_lia.
Qed.

(** The lead byte of a sequence: the marker [h * 2 ^ k] with the high bits
    [x] of the code point in its low [k] bits. *)
Lemma to_N_lead (h x k : N) :
  (x < 2 ^ k)%N → (h * 2 ^ k + x < 256)%N →
  Byte.to_N (byte_of_N (N.lor (h * 2 ^ k) x)) = (h * 2 ^ k + x)%N.
Proof.
  intros Hx Hsmall. rewrite to_N_byte_of_N, N_lor_high by done.
  by apply N.mod_small.
Qed.

Lemma emit_inv (c : N) (r : result str) (t : str) :
  emit c r = Ok t → ∃ t', r = Ok t' ∧ t = c :: t'.
Proof. destruct r as [t'|]; [|done]. intros [= <-]. by exists t'. Qed.

Lemma undecodable_inv (e : errors) (r : result str) (t : str) :
  undecodable e r = Ok t →
  ∃ t', r = Ok t' ∧ (t = t' ∨ t = 0xFFFD%N :: t').
Proof.
  unfold undecodable. destruct e; [done| |]; destruct r as [t'|]; try done;
    intros [= <-]; exists t'; (split; [done|]); [by right|by left].
Qed.

Lemma scalar_ascii (c : N) : (c <? 0x80)%N = true → is_scalar c.
Proof. intros Hc%N.ltb_lt. unfold is_scalar. lia. Qed.

Lemma scalar_code2 (b1 b2 : byte) : is_scalar (code2 b1 b2).
Proof. rewrite code2_value. unfold is_scalar. div_lia. Qed.

Lemma scalar_code3 (b1 b2 b3 : byte) :
  (Byte.to_N b1 <? 0xE0)%N = false → (Byte.to_N b1 <? 0xF0)%N = true →
  bad_second3 b1 b2 = false → is_scalar (code3 b1 b2 b3).
Proof.
  rewrite code3_value. unfold bad_second3, is_continuation, is_scalar.
  intros H1 H2 H3. compare_cases; simpl in *; try discriminate; div_lia.
Qed.

Lemma scalar_code4 (b1 b2 b3 b4 : byte) :
  (Byte.to_N b1 <? 0xF0)%N = false → (Byte.to_N b1 <? 0xF5)%N = true →
  bad_second4 b1 b2 = false → is_scalar (code4 b1 b2 b3 b4).
Proof.
  rewrite code4_value. unfold bad_second4, is_continuation, is_scalar.
  intros H1 H2 H3. compare_cases; simpl in *; try discriminate; div_lia.
Qed.

(** Whatever the error handler, the decoder yields scalar values only. *)
Lemma utf8_decode_scalar (e : errors) (s : bytes) (t : str) :
  utf8_decode e s = Ok t → Forall is_scalar t.
Proof.
  remember (length s) as n eqn:Hn.
  assert (length s ≤ n) as Hle by lia. clear Hn.
  revert s t Hle. induction n as [|n IH]; intros s t Hle.
  { destruct s; [|simpl in Hle; lia]. by intros [= <-]. }
  destruct s as [|b1 s1]; [by intros [= <-]|]. cbn [length] in Hle.
  assert (∀ c r, is_scalar c → (∀ t', r = Ok t' → Forall is_scalar t') →
                 emit c r = Ok t → Forall is_scalar t) as Hemit.
  { intros c r Hc Hr (t' & -> & ->)%emit_inv. constructor; [done|by apply Hr]. }
  assert (∀ r, (∀ t', r = Ok t' → Forall is_scalar t') →
               undecodable e r = Ok t → Forall is_scalar t) as Hund.
  { intros r Hr (t' & -> & [->| ->])%undecodable_inv; [by apply Hr|].
    constructor; [right; done|by apply Hr]. }
  assert (∀ t', Ok [] = Ok t' → Forall is_scalar t') as Hnil
    by (by intros t' [= <-]).
  cbn [utf8_decode]. cbv zeta.
  repeat case_match; subst; cbn [length] in Hle;
    first [ apply Hemit;
            [first [ apply scalar_code2 | by apply scalar_code3
                   | by apply scalar_code4
                   | by apply scalar_ascii ]|]
          | apply Hund ];
    first [ exact Hnil | intros t'; apply IH; cbn [length]; lia ].
Qed.

Lemma is_continuation_range (b : byte) :
  (0x80 ≤ Byte.to_N b < 0xC0)%N → is_continuation b = true.
Proof.
  intros [Hlo Hhi]. unfold is_continuation.
  by rewrite (proj2 (N.leb_le _ _) Hlo), (proj2 (N.ltb_lt _ _) Hhi).
Qed.

Lemma decode_step1 (e : errors) (b : byte) (s : bytes) :
  (Byte.to_N b < 0x80)%N →
  utf8_decode e (b :: s) = emit (Byte.to_N b) (utf8_decode e s).
Proof. intros Hb. cbn [utf8_decode]. cbv zeta. by rewrite (proj2 (N.ltb_lt _ _) Hb). Qed.

Lemma decode_step2 (e : errors) (b1 b2 : byte) (s : bytes) :
  (0xC2 ≤ Byte.to_N b1 < 0xE0)%N → (0x80 ≤ Byte.to_N b2 < 0xC0)%N →
  utf8_decode e (b1 :: b2 :: s) = emit (code2 b1 b2) (utf8_decode e s).
Proof.
  intros H1 H2. cbn [utf8_decode]. cbv zeta.
  rewrite (proj2 (N.ltb_ge (Byte.to_N b1) 0x80)) by lia.
  rewrite (proj2 (N.ltb_ge (Byte.to_N b1) 0xC2)) by lia.
  rewrite (proj2 (N.ltb_lt (Byte.to_N b1) 0xE0)) by lia.
  by rewrite is_continuation_range.
Qed.

Lemma decode_step3 (e : errors) (b1 b2 b3 : byte) (s : bytes) :
  (0xE0 ≤ Byte.to_N b1 < 0xF0)%N → (0x80 ≤ Byte.to_N b2 < 0xC0)%N →
  (Byte.to_N b1 = 0xE0 → 0xA0 ≤ Byte.to_N b2)%N →
  (Byte.to_N b1 = 0xED → Byte.to_N b2 < 0xA0)%N →
  (0x80 ≤ Byte.to_N b3 < 0xC0)%N →
  utf8_decode e (b1 :: b2 :: b3 :: s) = emit (code3 b1 b2 b3) (utf8_decode e s).
Proof.
  intros H1 H2 Hlow Hsur H3. cbn [utf8_decode]. cbv zeta.
  rewrite (proj2 (N.ltb_ge (Byte.to_N b1) 0x80)) by lia.
  rewrite (proj2 (N.ltb_ge (Byte.to_N b1) 0xC2)) by lia.
  rewrite (proj2 (N.ltb_ge (Byte.to_N b1) 0xE0)) by lia.
  rewrite (proj2 (N.ltb_lt (Byte.to_N b1) 0xF0)) by lia.
  assert (bad_second3 b1 b2 = false) as ->.
  { unfold bad_second3. rewrite is_continuation_range by done. cbn [negb orb].
    destruct (N.ltb_spec (Byte.to_N b2) 0xA0); apply N.eqb_neq; lia. }
  by rewrite is_continuation_range.
Qed.

Lemma decode_step4 (e : errors) (b1 b2 b3 b4 : byte) (s : bytes) :
  (0xF0 ≤ Byte.to_N b1 < 0xF5)%N → (0x80 ≤ Byte.to_N b2 < 0xC0)%N →
  (Byte.to_N b1 = 0xF0 → 0x90 ≤ Byte.to_N b2)%N →
  (Byte.to_N b1 = 0xF4 → Byte.to_N b2 < 0x90)%N →
  (0x80 ≤ Byte.to_N b3 < 0xC0)%N → (0x80 ≤ Byte.to_N b4 < 0xC0)%N →
  utf8_decode e (b1 :: b2 :: b3 :: b4 :: s)
  = emit (code4 b1 b2 b3 b4) (utf8_decode e s).
Proof.
  intros H1 H2 Hlow Hhigh H3 H4. cbn [utf8_decode]. cbv zeta.
  rewrite (proj2 (N.ltb_ge (Byte.to_N b1) 0x80)) by lia.
  rewrite (proj2 (N.ltb_ge (Byte.to_N b1) 0xC2)) by lia.
  rewrite (proj2 (N.ltb_ge (Byte.to_N b1) 0xE0)) by lia.
  rewrite (proj2 (N.ltb_ge (Byte.to_N b1) 0xF0)) by lia.
  rewrite (proj2 (N.ltb_lt (Byte.to_N b1) 0xF5)) by lia.
  assert (bad_second4 b1 b2 = false) as ->.
  { unfold bad_second4. rewrite is_continuation_range by done. cbn [negb orb].
    destruct (N.ltb_spec (Byte.to_N b2) 0x90); apply N.eqb_neq; lia. }
  by rewrite !is_continuation_range.
Qed.

Lemma to_N_lead2 (c : N) :
  (c < 0x800)%N →
  Byte.to_N (byte_of_N (N.lor 0xC0 (N.shiftr c 6))) = (192 + c / 64)%N.
Proof.
  intros Hc. rewrite N.shiftr_div_pow2. change 0xC0%N with (6 * 2 ^ 5)%N.
  rewrite to_N_lead; norm_pow; div_lia.
Qed.

Lemma to_N_lead3 (c : N) :
  (c < 0x10000)%N →
  Byte.to_N (byte_of_N (N.lor 0xE0 (N.shiftr c 12))) = (224 + c / 4096)%N.
Proof.
  intros Hc. rewrite N.shiftr_div_pow2. change 0xE0%N with (14 * 2 ^ 4)%N.
  rewrite to_N_lead; norm_pow; div_lia.
Qed.

Lemma to_N_lead4 (c : N) :
  (c < 0x200000)%N →
  Byte.to_N (byte_of_N (N.lor 0xF0 (N.shiftr c 18))) = (240 + c / 262144)%N.
Proof.
  intros Hc. rewrite N.shiftr_div_pow2. change 0xF0%N with (30 * 2 ^ 3)%N.
  rewrite to_N_lead; norm_pow; div_lia.
Qed.

Lemma to_N_trail_shift (c k : N) :
  Byte.to_N (trail (N.shiftr c k)) = (128 + (c / 2 ^ k) mod 64)%N.
Proof. by rewrite to_N_trail, N.shiftr_div_pow2. Qed.
End Unicode.

(** * The theorems at concrete inputs *)

(** The text the scan of [files] ends with for [id_0]. *)
Definition final_text (files : list bytes) : option bytes :=
  match scan_files ascii_only ascii_only (Ok <$> files) ∅ ∅ with
  | Ok (all_buffers, _) => all_buffers !! latin1_decode id_0
  | Raise _ => None
  end.

(** C1, as stated, fails: the running text a of the id, non-empty after the
    first file, is replaced by the text b of the second file, and the two
    processing orders end with different texts. *)
Lemma text_merge_later_nonempty_overwrites :
  final_text [file_a] = Some (bytes_of "a")
  ∧ final_text [file_a; file_b] = Some (bytes_of "b")
  ∧ final_text [file_b; file_a] = Some (bytes_of "a")
  ∧ merge_buffers {[latin1_decode id_0 := bytes_of "a"]}
                  {[latin1_decode id_0 := bytes_of "b"]} !! latin1_decode id_0
    ≠ Some (bytes_of "a").
Proof.
  repeat split; [by vm_compute..|].
  rewrite merge_buffers_lookup, lookup_singleton_eq. by vm_compute.
Qed.

Lemma text_merge_nonempty_wins_witness :
  ∃ v', foldl merge_buffers {[str_of "x" := bytes_of "a"]}
              [ {[str_of "x" := []]}; {[str_of "x" := bytes_of "b"]};
                {[str_of "y" := bytes_of "c"]} ] !! str_of "x" = Some v'
        ∧ v' = bytes_of "b".
Proof.
  destruct (proj2 text_merge_nonempty_wins {[str_of "x" := bytes_of "a"]}
              [ {[str_of "x" := []]}; {[str_of "x" := bytes_of "b"]};
                {[str_of "y" := bytes_of "c"]} ] (str_of "x") (bytes_of "a"))
    as (v' & H1 & H2 & _).
  - apply lookup_singleton_eq.
  - discriminate.
  - exists v'. split; [exact H1|]. rewrite H2. vm_compute. reflexivity.
Defined.

Lemma text_merge_empty_vs_nonempty_witness :
  merge_buffers (merge_buffers ∅ {[str_of "x" := []]})
                {[str_of "x" := bytes_of "hello"]} !! str_of "x"
  = Some (bytes_of "hello")
  ∧ merge_buffers (merge_buffers ∅ {[str_of "x" := bytes_of "hello"]})
                  {[str_of "x" := []]} !! str_of "x"
    = Some (bytes_of "hello").
Proof.
  apply text_merge_empty_vs_nonempty.
  - apply lookup_singleton_eq.
  - apply lookup_singleton_eq.
  - discriminate.
Defined.

Lemma is_internal_buffer_iff_witness :
  is_internal_buffer (str_of "short") = false.
Proof.
  apply (proj1 (proj2 (is_internal_buffer_iff (str_of "short")))).
  vm_compute. lia.
Defined.


Lemma located_id_is_found_again_witness :
  ∃ start, re_search (id_pattern_of id_0) file_a = Some start.
Proof.
  apply located_id_is_found_again.
  apply elem_of_list_to_set. vm_compute. left.
Defined.

Lemma payload_whole_or_empty_witness :
  ∃ buffer_texts,
    extract_buffers_by_id ascii_only ascii_only file_short = Ok buffer_texts
    ∧ buffer_texts !! latin1_decode id_0 = Some [].
Proof.
  destruct (payload_whole_or_empty ascii_only ascii_only file_short id_0)
    as (buffer_texts & start & tl & bc & Htexts & Hstart & _ & Hdec & Hempty & _).
  - apply elem_of_list_to_set. vm_compute. left.
  - exists buffer_texts. split; [exact Htexts|].
    vm_compute in Hstart. injection Hstart as <-.
    vm_compute in Hdec. injection Hdec as <- <-.
    apply Hempty. right. right. vm_compute. reflexivity.
Defined.

Lemma hello_is_extracted_witness :
  ∃ buffer_texts,
    extract_buffers_by_id ascii_only ascii_only
      (bytes_of "id" ++ [quote] ++ bytes_of "  " ++ id_0 ++ [quote]
       ++ bytes_of "text" ++ [quote] ++ [x05] ++ bytes_of "Hello")
    = Ok buffer_texts
    ∧ buffer_texts !! latin1_decode id_0 = Some (bytes_of "Hello").
Proof.
  apply hello_is_extracted.
  - reflexivity.
  - repeat constructor.
Defined.

Lemma grammar_last_write_wins_witness :
  ∃ grammars,
    extract_buffer_grammars two_grammars = Ok grammars
    ∧ grammars !! latin1_decode id_0 = Some (str_of "text.plain").
Proof.
  destruct (proj1 (grammar_last_write_wins ascii_only ascii_only) two_grammars)
    as (grammars & Hg & Hlast).
  exists grammars. split; [exact Hg|].
  destruct (Hlast [[id_0; bytes_of "source.python"]] [id_0; bytes_of "text.plain"] [])
    as (key & grammar & Hkey & Hgrammar & Hlook).
  - vm_compute. reflexivity.
  - intros m' Hm'. inversion Hm'.
  - vm_compute in Hkey. injection Hkey as <-.
    vm_compute in Hgrammar. injection Hgrammar as <-.
    exact Hlook.
Defined.

(** ** The repository's tests, run on the model *)

Example test_normalize_text :
  normalize_text ascii_only ascii_only
    (bytes_of "Hello" ++ [x00; x01; x02] ++ bytes_of "World" ++ [x0a]
     ++ bytes_of "New" ++ [x09] ++ bytes_of "Line" ++ [x0d; x0a])
  = Ok (str_of "HelloWorld" ++ [10%N] ++ str_of "New" ++ [9%N] ++ str_of "Line").
Proof. reflexivity. Qed.

Example test_internal_buffer_filtering :
  is_internal_buffer
    (str_of "{" ++ [34%N] ++ str_of "deserializer" ++ [34%N] ++ str_of ":"
     ++ [34%N] ++ str_of "Workspace" ++ [34%N] ++ str_of "}") = true
  ∧ is_internal_buffer (str_of "packagesWithActiveGrammars: []") = true
  ∧ is_internal_buffer (str_of "destroyedItemURIs: []") = true
  ∧ is_internal_buffer (str_of "This is a user note") = false
  ∧ is_internal_buffer (str_of "# My TODO list") = false
  ∧ is_internal_buffer (str_of "function test() { }") = false
  ∧ is_internal_buffer (str_of "SELECT * FROM users;") = false.
Proof. repeat split; reflexivity. Qed.

Example test_extract_buffer_grammars :
  extract_buffer_grammars
    (bytes_of "abcdef1234567890abcdef1234567890" ++ [quote; x01]
     ++ bytes_of "source.python")
  = Ok {[ str_of "abcdef1234567890abcdef1234567890" := str_of "source.python" ]}.
Proof. by vm_compute. Qed.

Example test_extract_buffers_by_id :
  extract_buffers_by_id ascii_only ascii_only
    (bytes_of "id" ++ [quote] ++ bytes_of "  "
     ++ bytes_of "11223344556677889900aabbccddeeff" ++ [quote]
     ++ bytes_of "someothertext" ++ [quote; x13] ++ bytes_of "Test buffer content")
  = Ok {[ str_of "11223344556677889900aabbccddeeff"
          := bytes_of "Test buffer content" ]}.
Proof. by vm_compute. Qed.

(** An empty text of a later file leaves the running text in place. *)
Example empty_text_keeps_running :
  final_text [file_a; file_empty] = Some (bytes_of "a")
  ∧ final_text [file_empty; file_a] = Some (bytes_of "a")
  ∧ final_text [file_empty] = Some [].
Proof. repeat split; by vm_compute. Qed.

(** Python's indexing from the end, at a negative offset. *)
Example varint_at_negative_offset :
  decode_varint_length [x07; x05] (-1) = Ok (5, 1)%Z
  ∧ decode_varint_length [x07; x05] (-3) = Raise IndexError.
Proof. split; reflexivity. Qed.

(** * The further properties at concrete inputs *)

Lemma long_payload_is_dropped_witness :
  ∃ buffer_texts,
    extract_buffers_by_id ascii_only ascii_only file_long = Ok buffer_texts
    ∧ buffer_texts !! latin1_decode id_0 = Some [].
Proof.
  apply (long_payload_is_dropped ascii_only ascii_only file_long id_0 0 2051 2).
  - apply elem_of_list_to_set. vm_compute. left.
  - vm_compute. reflexivity.
  - vm_compute. discriminate.
  - vm_compute. reflexivity.
  - lia.
Defined.
